(** * discordBotGo: the radio coordinator, the song store and the resolver

    A shallow embedding of
      - internal/music/storage/firestore/service.go  (package firestore:
        the read-through song store),
      - internal/music/search/youtube/service.go     (package youtube:
        the stream resolver),
      - the player [Service] (package player: the radio coordinator that
        decorates the Player),
    followed by the properties of the playback specification that concern
    them.

    Conventions.  A Go [*pkg.Song] that a function mutates in place is
    passed as a value and handed back as a value by every operation that
    may have written to it.  Go's [int] is a 64-bit two's complement
    integer, written as a [Z] with its wrap-around.  Unbounded recursion is
    run with fuel; [OutOfFuel] means "has not returned yet". *)

From Stdlib Require Import ZArith Floats.SpecFloat.
From stdpp Require Import base option list strings gmap fin_maps.

Local Open Scope Z_scope.
Local Open Scope string_scope.

(** ** Go errors *)

(** The sentinel errors the three packages compare against, errors made on
    the spot with [errors.New], errors coming out of external libraries
    (ytdl, the Firestore SDK, the voice transport), and
    [errors.Wrap]/[errors.Wrapf]. *)
Inductive error : Type :=
  | ErrNotFound                         (* firestore.ErrNotFound *)
  | ErrSongNotFound                     (* youtube.ErrSongNotFound *)
  | ErrNotConnected                     (* player.ErrNotConnected *)
  | ErrQueueEmpty                       (* player.ErrQueueEmpty *)
  | ErrManualStop                       (* audio.ErrManualStop *)
  | EOF                                 (* io.EOF *)
  | New (msg : string)                  (* errors.New(msg) *)
  | Foreign (msg : string)              (* an error of an external library *)
  | Wrap (cause : error) (msg : string) (* errors.Wrap(cause, msg) *).

#[global] Instance error_eq_dec : EqDecision error.
Proof. solve_decision. Defined.

(** [errors.Is(err, target)]: walks the chain of wrapped causes and
    compares each link with the target. *)
Fixpoint Is (err target : error) : bool :=
  if decide (err = target) then true
  else match err with
       | Wrap cause _ => Is cause target
       | _ => false
       end.

(** ** Go's int *)

Definition int_min : Z := - 2 ^ 63.
Definition int_max : Z := 2 ^ 63 - 1.

(** The value a 64-bit signed register holds after an arithmetic result [z]. *)
Definition int_wrap (z : Z) : Z := (z + 2 ^ 63) mod 2 ^ 64 - 2 ^ 63.

(** ** float64, as far as the code uses it: stored, copied, compared with 0 *)

Definition float64 : Type := spec_float.

(** [d == 0] holds for both zeros and for nothing else. *)
Definition float_is_zero (d : float64) : bool :=
  match d with
  | S754_zero _ => true
  | _ => false
  end.

(** ** package pkg: songs *)

Module pkg.

Definition ServiceName : Type := string.
Definition ServiceYouTube : ServiceName := "youtube".

Record SongID : Type := mkSongID {
  SongID_ID : string;
  SongID_Service : ServiceName
}.

#[global] Instance SongID_eq_dec : EqDecision SongID.
Proof. solve_decision. Defined.

#[global] Instance SongID_inhabited : Inhabited SongID :=
  populate (mkSongID "" "").

(** [pkg.PlayDate{Time: t}]: an instant, counted from the zero time. *)
Definition PlayDate : Type := Z.

Record Song : Type := mkSong {
  Title : string;
  URL : string;
  Service : ServiceName;
  ArtistName : string;
  ArtistURL : string;
  ArtworkURL : string;
  ThumbnailURL : string;
  Playbacks : Z;
  LastPlay : PlayDate;
  ID : SongID;
  StreamURL : string;
  Duration : float64
}.

(** The zero value [pkg.Song{}]. *)
Definition zeroSong : Song :=
  mkSong "" "" "" "" "" "" "" 0 0 (mkSongID "" "") "" (S754_zero false).

(** Field updates, for [song.F = v]. *)
Definition set_StreamURL (v : string) (s : Song) : Song :=
  mkSong (Title s) (URL s) (Service s) (ArtistName s) (ArtistURL s)
    (ArtworkURL s) (ThumbnailURL s) (Playbacks s) (LastPlay s) (ID s)
    v (Duration s).

Definition set_Duration (v : float64) (s : Song) : Song :=
  mkSong (Title s) (URL s) (Service s) (ArtistName s) (ArtistURL s)
    (ArtworkURL s) (ThumbnailURL s) (Playbacks s) (LastPlay s) (ID s)
    (StreamURL s) v.

Definition set_Playbacks (v : Z) (s : Song) : Song :=
  mkSong (Title s) (URL s) (Service s) (ArtistName s) (ArtistURL s)
    (ArtworkURL s) (ThumbnailURL s) v (LastPlay s) (ID s)
    (StreamURL s) (Duration s).

Definition set_LastPlay (v : PlayDate) (s : Song) : Song :=
  mkSong (Title s) (URL s) (Service s) (ArtistName s) (ArtistURL s)
    (ArtworkURL s) (ThumbnailURL s) (Playbacks s) v (ID s)
    (StreamURL s) (Duration s).

(** A string field holds a value when it is not the empty string. *)
Definition keep_str (mine theirs : string) : string :=
  if decide (mine = "") then theirs else mine.

Definition keep_int (mine theirs : Z) : Z :=
  if decide (mine = 0) then theirs else mine.

Definition keep_id (mine theirs : SongID) : SongID :=
  if decide (mine = mkSongID "" "") then theirs else mine.

Definition keep_float (mine theirs : float64) : float64 :=
  if float_is_zero mine then theirs else mine.

(** Modelled from the spec: [Song.MergeNoOverride] (internal/pkg, not
    among the sources).  The spec asks of a merge that it "must not
    override already-populated fields with lower-confidence data":
    every field of the receiver that still holds its zero value takes
    the other song's value, every populated field is left alone.  The
    callers pass a nil pointer when there is nothing to merge
    ([UpsertSongIncPlaybacks] on a track that is not stored yet), which
    leaves the receiver unchanged. *)
Definition MergeNoOverride (s : Song) (new : option Song) : Song :=
  match new with
  | None => s
  | Some n =>
      mkSong (keep_str (Title s) (Title n))
             (keep_str (URL s) (URL n))
             (keep_str (Service s) (Service n))
             (keep_str (ArtistName s) (ArtistName n))
             (keep_str (ArtistURL s) (ArtistURL n))
             (keep_str (ArtworkURL s) (ArtworkURL n))
             (keep_str (ThumbnailURL s) (ThumbnailURL n))
             (keep_int (Playbacks s) (Playbacks n))
             (keep_int (LastPlay s) (LastPlay n))
             (keep_id (ID s) (ID n))
             (keep_str (StreamURL s) (StreamURL n))
             (keep_float (Duration s) (Duration n))
  end.

(** [after] keeps every field that [before] had populated; the stream
    reference and the duration are left to the caller to speak about. *)
Definition keeps_populated (before after : Song) : Prop :=
  (ID before ≠ mkSongID "" "" -> ID after = ID before) ∧
  (Title before ≠ "" -> Title after = Title before) ∧
  (URL before ≠ "" -> URL after = URL before) ∧
  (Service before ≠ "" -> Service after = Service before) ∧
  (ArtistName before ≠ "" -> ArtistName after = ArtistName before) ∧
  (ArtistURL before ≠ "" -> ArtistURL after = ArtistURL before) ∧
  (ArtworkURL before ≠ "" -> ArtworkURL after = ArtworkURL before) ∧
  (ThumbnailURL before ≠ "" -> ThumbnailURL after = ThumbnailURL before) ∧
  (LastPlay before ≠ 0 -> LastPlay after = LastPlay before).

(** [after] has, in every field that [before] had left empty, the value
    of [other]; again up to stream reference, duration and play count. *)
Definition filled_from (other before after : Song) : Prop :=
  (ID before = mkSongID "" "" -> ID after = ID other) ∧
  (Title before = "" -> Title after = Title other) ∧
  (URL before = "" -> URL after = URL other) ∧
  (Service before = "" -> Service after = Service other) ∧
  (ArtistName before = "" -> ArtistName after = ArtistName other) ∧
  (ArtistURL before = "" -> ArtistURL after = ArtistURL other) ∧
  (ArtworkURL before = "" -> ArtworkURL after = ArtworkURL other) ∧
  (ThumbnailURL before = "" -> ThumbnailURL after = ThumbnailURL other) ∧
  (LastPlay before = 0 -> LastPlay after = LastPlay other).

End pkg.

(** ** package firestore: the read-through song store *)

Module firestore.
Import pkg.

(** The Firestore client ([*Client], client.go) is not among the sources
    and is taken as an interface.  A call hands back the client it leaves
    behind; a lookup answers with the stored song or with an error, which
    is [ErrNotFound] when the document does not exist. *)
Class ClientAPI (C : Type) : Type := {
  GetSongByID : SongID -> C -> (Song + error) * C;
  client_SetSong : Song -> C -> option error * C;
  GetUserSong : SongID -> string -> C -> (Song + error) * C;
  SetUserSong : Song -> string -> C -> option error * C
}.

(** [SongsCache.KeyFromID] (cache.go, not among the sources), a parameter. *)
Class CacheKey : Type := KeyFromID : SongID -> string.

(** The process-wide [math/rand] source: the numbers it is going to hand
    out and how many were drawn.  Reseeding with the clock before every
    draw only changes which numbers these are. *)
Record Rand : Type := mkRand {
  rand_src : nat -> Z;
  rand_pos : nat
}.

(** [rand.Intn(max)] for [max > 0]: a number in [0, max). *)
Definition Intn (max : Z) (r : Rand) : Z * Rand :=
  (rand_src r (rand_pos r) mod max, mkRand (rand_src r) (S (rand_pos r))).

Section Store.
Context {C : Type} `{!ClientAPI C} `{!CacheKey}.

(** Modelled from the spec: [SongsCache] (cache.go, not among the
    sources), "a persistent song store with its own read-through cache":
    a finite map from keys to songs; [Get] is the lookup [!!], [Set] the
    insertion.  Entries the cache's time-to-live has dropped are simply
    absent from the map. *)
Notation SongsCache := (gmap string Song).

(** [Service]: the songs cache, the client, the list of preloaded song
    ids, the update flag; [rand] is the state of the random source. *)
Record Service : Type := mkService {
  songs : SongsCache;
  client : C;
  songsShort : list SongID;     (* songsShort.List *)
  updated : bool;
  rand : Rand
}.

Definition with_songs (m : gmap string Song) (s : Service) : Service :=
  mkService m (client s) (songsShort s) (updated s) (rand s).

Definition with_client (c : C) (s : Service) : Service :=
  mkService (songs s) c (songsShort s) (updated s) (rand s).

Definition with_rand (r : Rand) (s : Service) : Service :=
  mkService (songs s) (client s) (songsShort s) (updated s) r.

Definition setUpdate (b : bool) (s : Service) : Service :=
  mkService (songs s) (client s) (songsShort s) b (rand s).

Definition needUpdate (s : Service) : bool := updated s.

(** [GetSong]: the cache first, then the database; a song read from the
    database is put into the cache.  (The formatted id is left out of the
    wrapping message.) *)
Definition GetSong (id : SongID) (s : Service) : (Song + error) * Service :=
  let key := KeyFromID id in
  match songs s !! key with
  | Some cached => (inl cached, s)
  | None =>
      let '(r, c) := GetSongByID id (client s) in
      match r with
      | inr err =>
          if decide (err = ErrNotFound) then (inr ErrNotFound, with_client c s)
          else (inr (Wrap err "get song by id"), with_client c s)
      | inl song => (inl song, with_songs (<[key := song]> (songs s)) (with_client c s))
      end
  end.

Definition SetSong (song : Song) (s : Service) : option error * Service :=
  let s1 := setUpdate true s in
  let '(err, c) := client_SetSong song (client s1) in
  match err with
  | Some e => (Some (Wrap e "firestore set song"), with_client c s1)
  | None =>
      (None, with_songs (<[KeyFromID (ID song) := song]> (songs s1)) (with_client c s1))
  end.

(** A Go result pair [(value, err)] read off a sum: the value is nil
    when there is an error, the error is nil when there is a value. *)
Definition value_of {A : Type} (r : A + error) : option A :=
  match r with inl a => Some a | inr _ => None end.

Definition err_of {A : Type} (r : A + error) : option error :=
  match r with inl _ => None | inr e => Some e end.

(** The guard [err != nil && err != target]: the error that passes it. *)
Definition other_than (target : error) (err : option error) : option error :=
  match err with
  | Some e => if decide (e = target) then None else Some e
  | None => None
  end.

(** [UpsertSongIncPlaybacks(ctx, new)].  The result carries [*new] as the
    call leaves it, the returned count and the returned error. *)
Definition UpsertSongIncPlaybacks (new : Song) (s : Service)
  : (Song * Z * option error) * Service :=
  let '(r, s1) := GetSong (ID new) s in
  let old := value_of r in
  match other_than ErrNotFound (err_of r) with
  | Some err => ((new, 0, Some (Wrap err "failed to get song from db")), s1)
  | None =>
      let new1 := MergeNoOverride new old in
      let new2 := set_Playbacks (int_wrap (Playbacks new1 + 1)) new1 in
      let playbacks := Playbacks new2 in
      let '(e, s2) := SetSong new2 s1 in
      match e with
      | Some e' => ((new2, 0, Some (Wrap e' "failed to set song into db")), s2)
      | None => ((new2, playbacks, None), s2)
      end
  end.

(** [IncrementUserRequests(ctx, song, userID)]; hands back [*song]. *)
Definition IncrementUserRequests (song : Song) (userID : string) (s : Service)
  : Song * Service :=
  let '(r, c) := GetUserSong (ID song) userID (client s) in
  match r with
  | inr err =>
      if decide (err = ErrNotFound) then
        let song1 := set_Playbacks 1 song in
        let '(_, c1) := SetUserSong song1 userID c in
        (song1, with_client c1 s)
      else (song, with_client c s)
  | inl userSong =>
      let song1 := set_Playbacks (int_wrap (Playbacks userSong + 1)) song in
      let '(_, c1) := SetUserSong song1 userID c in
      (song1, with_client c1 s)
  end.

(** The sampling loop of [GetRandomSongs]: runs while [len(set) < n] and
    [cooldown > 0]; the recursion is on the cooldown counter.  The index
    is below [max = len(List)]. *)
Fixpoint sample (cooldown : nat) (n max : Z) (List : list SongID)
    (set : gmap string SongID) (r : Rand) : gmap string SongID * Rand :=
  match cooldown with
  | O => (set, r)
  | S cooldown' =>
      if decide (Z.of_nat (size set) < n) then
        let '(i, r1) := Intn max r in
        let id := List !!! Z.to_nat i in
        sample cooldown' n max List (<[SongID_ID id := id]> set) r1
      else (set, r)
  end.

(** The loop that loads the sampled songs; the first failure ends it. *)
Fixpoint load (ids : list SongID) (result : list Song) (s : Service)
  : (list Song * option error) * Service :=
  match ids with
  | [] => ((result, None), s)
  | v :: rest =>
      let '(r, s1) := GetSong v s in
      match r with
      | inr err => (([], Some (Wrap err "get song failed")), s1)
      | inl song => load rest (result ++ [song]) s1
      end
  end.

(** [GetRandomSongs(ctx, n)].  Go ranges over the sampled map in an
    unspecified order; the model takes the order of [map_to_list]. *)
Definition GetRandomSongs (n : Z) (s : Service)
  : (list Song * option error) * Service :=
  let max := Z.of_nat (length (songsShort s)) in
  if decide (max = 0) then (([], Some (New "no preloaded songs")), s)
  else
    let cooldown := int_wrap (n * 10) in
    let '(set, r) := sample (Z.to_nat cooldown) n max (songsShort s) ∅ (rand s) in
    load (snd <$> map_to_list set) [] (with_rand r s).

End Store.

(** [client.GetAllSongsID(ctx)] (client.go, not among the sources): the
    ids of all stored songs and an error. *)
Class ListAPI (C : Type) : Type :=
  GetAllSongsID : C -> (list SongID * option error) * C.

Section Refresh.
Context {C : Type} `{!ListAPI C}.

(** [NewFirestoreService], as it is before the reload it starts in the
    background has run: nothing is preloaded. *)
Definition NewFirestoreService (client : C) (songs : gmap string Song) (r : Rand)
  : Service (C := C) :=
  mkService songs client [] false r.

(** [updateShortCache(ctx)]: the list is replaced by what the client
    returned, also when the client failed; a failure raises the update
    flag again.  (The log lines are left out.) *)
Definition updateShortCache (s : Service (C := C)) : Service (C := C) :=
  let '((list, err), c) := GetAllSongsID (client s) in
  let s1 := with_client c s in
  let s2 := match err with
            | Some _ => setUpdate true s1
            | None => s1
            end in
  mkService (songs s2) (client s2) list (updated s2) (rand s2).

(** One tick of the ticker of [updateShortCacheProcess]. *)
Definition tick (s : Service (C := C)) : Service (C := C) :=
  if needUpdate s then updateShortCache (setUpdate false s) else s.

End Refresh.
End firestore.

(** ** package youtube: search and stream resolution *)

Module youtube.
Import pkg.

Definition videoPrefix : string := "https://youtube.com/watch?v=".
Definition channelPrefix : string := "https://youtube.com/channel/".
Definition videoKind : string := "youtube#video".
Definition videoFormat : string := ".m4a".
Definition videoType : string := "audio/mp4".
Definition maxSearchResult : Z := 10.

Record Config : Type := mkConfig {
  cfg_Download : bool;
  OutputDir : string
}.

(** What the code reads of the external libraries' data. *)
Record Thumbnail : Type := mkThumbnail {
  thumb_URL : string;
  Height : Z                      (* uint *)
}.

Record Format : Type := mkFormat {
  ItagNo : Z;
  MimeType : string;
  AudioChannels : Z
}.

Record Video : Type := mkVideo {
  video_ID : string;
  video_Title : string;
  Author : string;
  Thumbnails : list Thumbnail;
  Seconds : float64;              (* v.Duration.Seconds() *)
  Formats : list Format
}.

(** [youtube.ThumbnailDetails]: five optional sizes, each with its Url. *)
Record ThumbnailDetails : Type := mkDetails {
  Default : option string;
  Standard : option string;
  Medium : option string;
  High : option string;
  Maxres : option string
}.

(** One search result: [item.Id] and [item.Snippet]. *)
Record Item : Type := mkItem {
  Kind : string;
  VideoId : string;
  item_Title : string;
  ChannelTitle : string;
  ChannelId : string;
  item_Thumbnails : option ThumbnailDetails
}.

#[global] Instance Thumbnail_inhabited : Inhabited Thumbnail :=
  populate (mkThumbnail "" 0).
#[global] Instance Format_inhabited : Inhabited Format :=
  populate (mkFormat 0 "" 0).

(** The external services behind [YouTube]: the ytdl client, the YouTube
    search API, the downloader and the library helpers on format lists
    and paths.  None of them is code of this repository. *)
Class Backend (Y : Type) : Type := {
  (* y.youtube.Search.List(...).Q(query).MaxResults(n).Do(): Items, err *)
  SearchList : string -> Z -> Y -> (option (list Item) * option error) * Y;
  (* y.ytdl.GetVideo(url) *)
  GetVideo : string -> Y -> (Video + error) * Y;
  (* formats.WithAudioChannels().Type(t) *)
  WithAudioChannels_Type : list Format -> string -> list Format;
  (* formats.Sort() *)
  FormatList_Sort : list Format -> list Format;
  (* y.ytdl.GetStreamURLContext(ctx, video, &format) *)
  GetStreamURLContext : Video -> Format -> Y -> (string * option error) * Y;
  (* dl.Download(ctx, video, &format, fileName) *)
  Download : Video -> Format -> string -> Y -> option error * Y;
  (* filepath.Join(dir, file) *)
  filepath_Join : string -> string -> string
}.

Definition opt_assign (field : option string) (var : string) : string :=
  match field with Some url => url | None => var end.

(** [getImages(details)]: returns (artwork, thumbnail). *)
Definition getImages (details : option ThumbnailDetails) : string * string :=
  match details with
  | None => ("", "")
  | Some d =>
      let thumbnail := opt_assign (Standard d) (opt_assign (Default d) "") in
      let artwork :=
        opt_assign (Maxres d) (opt_assign (High d) (opt_assign (Medium d)
          (opt_assign (Standard d) (opt_assign (Default d) "")))) in
      (artwork, thumbnail)
  end.

(** The loop of [getYTDLImages]: the index of the first thumbnail of the
    largest height, 0 when none is higher than 0. *)
Fixpoint maxIterLoop (ts : list Thumbnail) (i : nat) (maxHeight : Z) (maxIter : nat)
  : nat :=
  match ts with
  | [] => maxIter
  | t :: rest =>
      if decide (Height t > maxHeight) then maxIterLoop rest (S i) (Height t) i
      else maxIterLoop rest (S i) maxHeight maxIter
  end.

Definition getYTDLImages (ts : list Thumbnail) : string * string :=
  match ts with
  | [] => ("", "")
  | _ =>
      let maxIter := maxIterLoop ts 0 0 0 in
      (thumb_URL (ts !!! maxIter), thumb_URL (ts !!! maxIter))
  end.

Definition songFromInfo (v : Video) : Song :=
  let '(art, thumb) := getYTDLImages (Thumbnails v) in
  mkSong (video_Title v) (videoPrefix ++ video_ID v) ServiceYouTube (Author v)
    "" art thumb 0 0 (mkSongID (video_ID v) ServiceYouTube) "" (Seconds v).

(** [sort.SliceStable(formats, ItagNo ascending)]: a stable insertion sort. *)
Fixpoint insertItag (f : Format) (sorted : list Format) : list Format :=
  match sorted with
  | [] => [f]
  | g :: rest =>
      if decide (ItagNo f <= ItagNo g) then f :: g :: rest
      else g :: insertItag f rest
  end.

Definition sortStableByItag (formats : list Format) : list Format :=
  foldr insertItag [] formats.

Section Resolver.
Context {Y : Type} `{!Backend Y} `{!firestore.CacheKey}.

(** The first video among the items of a search response. *)
Fixpoint firstVideo (items : list Item) : Song + error :=
  match items with
  | [] => inr ErrSongNotFound
  | item :: rest =>
      if decide (Kind item = videoKind) then
        let '(art, thumb) := getImages (item_Thumbnails item) in
        inl (mkSong (item_Title item) (videoPrefix ++ VideoId item) ServiceYouTube
               (ChannelTitle item) (channelPrefix ++ ChannelId item) art thumb
               0 0 (mkSongID (VideoId item) ServiceYouTube) "" (S754_zero false))
      else firstVideo rest
  end.

Definition findSong (query : string) (y : Y) : (Song + error) * Y :=
  let '((items, err), y1) := SearchList query maxSearchResult y in
  match err, items with
  | None, Some items' => (firstVideo items', y1)
  | _, _ => (inr ErrSongNotFound, y1)
  end.

(** [EnsureStreamInfo(ctx, song)].  The cache is the shared [SongsCache]
    (only read here).  The result carries [*song] as the call leaves it
    and the returned error; Go returns [(song, nil)] or [(nil, err)].
    (The formatted arguments are left out of the wrapping messages.) *)
Definition EnsureStreamInfo (config : Config) (cache : gmap string Song)
    (song : Song) (y : Y) : (Song * option error) * Y :=
  match cache !! firestore.KeyFromID (ID song) with
  | Some s =>
      let song1 := set_StreamURL (StreamURL s) song in
      let song2 := set_Duration (Duration s) song1 in
      ((song2, None), y)
  | None =>
      let url := URL song in
      let '(r, y1) := GetVideo url y in
      match r with
      | inr err => ((song, Some (Wrap err "loag video metadata by url")), y1)
      | inl videoInfo =>
          let formats := WithAudioChannels_Type (Formats videoInfo) videoType in
          if decide (length formats = 0%nat) then
            ((song, Some (New "unable to get list of formats")), y1)
          else if cfg_Download config then
            let sorted := FormatList_Sort formats in
            let format := default inhabitant (last sorted) in
            let fileName := video_ID videoInfo ++ videoFormat in
            let song1 := set_StreamURL (filepath_Join (OutputDir config) fileName) song in
            let '(err, y2) := Download videoInfo format fileName y1 in
            match err with
            | Some e => ((song1, Some e), y2)
            | None =>
                let additionalSongInfo := songFromInfo videoInfo in
                ((MergeNoOverride song1 (Some additionalSongInfo), None), y2)
            end
          else
            let sorted := sortStableByItag formats in
            let format := sorted !!! 0%nat in
            let '((streamURL, err), y2) := GetStreamURLContext videoInfo format y1 in
            match err with
            | Some e => ((song, Some (Wrap e "unable to get streamURL")), y2)
            | None =>
                let song1 := set_StreamURL streamURL song in
                let additionalSongInfo := songFromInfo videoInfo in
                ((MergeNoOverride song1 (Some additionalSongInfo), None), y2)
            end
      end
  end.

Definition FindSong (config : Config) (cache : gmap string Song)
    (query : string) (y : Y) : (Song + error) * Y :=
  let '(r, y1) := findSong query y in
  match r with
  | inr err => (inr err, y1)
  | inl song =>
      let '((song1, err), y2) := EnsureStreamInfo config cache song y1 in
      match err with
      | Some e => (inr (Wrap e "ensure stream info"), y2)
      | None => (inl song1, y2)
      end
  end.

End Resolver.
End youtube.

(** ** package player: the radio coordinator *)

Module player.
Import pkg.

(** A handler registered with the Player's error subscription: the
    coordinator's own [s.handleError], or the closure that
    [Service.SubscribeOnErrors] builds around the external handler
    number [h]. *)
Inductive ErrorHandler : Type :=
  | HandleError
  | Filtered (h : nat).

(** The [Firestore] interface. *)
Class Firestore (W : Type) : Type := {
  UpsertSongIncPlaybacks : Song -> W -> (Song * Z * option error) * W;
  IncrementUserRequests : Song -> string -> W -> Song * W;
  GetRandomSongs : Z -> W -> (list Song * option error) * W
}.

(** The [YouTube] interface.  A nil error comes with a song. *)
Class YouTube (W : Type) : Type := {
  FindSong : string -> W -> (Song + error) * W;
  EnsureStreamInfo : Song -> W -> (Song + error) * W
}.

(** The embedded [*Player] with its voice client (player.go is not among
    the sources): the operations the coordinator calls on it. *)
Class Player (W : Type) : Type := {
  voice_IsConnected : W -> bool;
  Player_Connect : string -> string -> W -> W;
  Player_Play : Song -> W -> W;
  Player_NowPlaying : W -> option Song;
  Player_Stop : W -> W;
  Player_Disconnect : W -> W;
  Player_SubscribeOnErrors : ErrorHandler -> W -> W
}.

(** What the logger was asked to write. *)
Inductive LogEntry : Type :=
  | LogDebug (msg : string)
  | LogError (err : error)
  | LogErrorMsg (msg : string) (err : error).

(** The calls the coordinator makes on its collaborators, in order.
    [CGoPlay] is [go s.Player.Play(song)], [CHandler h err] is [h(err)]
    for the external handler number [h]. *)
Inductive Call : Type :=
  | CFindSong (query : string)
  | CEnsureStreamInfo (song : Song)
  | CUpsertSongIncPlaybacks (song : Song)
  | CIncrementUserRequests (song : Song) (userID : string)
  | CGetRandomSongs (n : Z)
  | CConnect (guildID channelID : string)
  | CPlay (song : Song)
  | CGoPlay (song : Song)
  | CStop
  | CDisconnect
  | CSubscribe (hd : ErrorHandler)
  | CHandler (h : nat) (err : error).

(** The number of provider requests in a trace. *)
Fixpoint requests (cs : list Call) : nat :=
  match cs with
  | [] => 0
  | CGetRandomSongs _ :: rest => S (requests rest)
  | _ :: rest => requests rest
  end.

(** The calls [h(err)] on external handlers in a trace. *)
Fixpoint handed (cs : list Call) : list (nat * error) :=
  match cs with
  | [] => []
  | CHandler h err :: rest => (h, err) :: handed rest
  | _ :: rest => handed rest
  end.

Section Coordinator.
Context {W : Type} `{!Firestore W} `{!YouTube W} `{!Player W}.

(** The coordinator: the collaborators' state [world] (Player, storage,
    youtube), the radio flag, and, as instrumentation, the logger's
    output and the trace of collaborator calls. *)
Record Service : Type := mkService {
  world : W;
  isRadio : bool;
  logger : list LogEntry;
  calls : list Call
}.

(** How a method ends: it returns a value, panics, or is still running
    when the fuel is used up. *)
Inductive Res (A : Type) : Type :=
  | Ret (a : A) (s : Service)
  | Panic (s : Service)
  | OutOfFuel.
Arguments Ret {A} a s.
Arguments Panic {A} s.
Arguments OutOfFuel {A}.

Definition M (A : Type) : Type := Service -> Res A.

Definition ret {A : Type} (a : A) : M A := fun s => Ret a s.

Definition bind {A B : Type} (m : M A) (k : A -> M B) : M B :=
  fun s =>
    match m s with
    | Ret a s1 => k a s1
    | Panic s1 => Panic s1
    | OutOfFuel => OutOfFuel
    end.

Notation "'let*' x ':=' m 'in' k" := (bind m (fun x => k))
  (at level 10, x name, m at level 100, k at level 200).
Notation "'let*' ' pat ':=' m 'in' k" := (bind m (fun x => let 'pat := x in k))
  (at level 10, pat pattern, m at level 100, k at level 200).
Notation "m ;; k" := (bind m (fun _ => k))
  (at level 100, k at level 200, right associativity).

Definition panic {A : Type} : M A := fun s => Panic s.

(** A call on a collaborator: the world moves on, the trace grows. *)
Definition call {A : Type} (c : Call) (op : W -> A * W) : M A :=
  fun s =>
    let '(a, w) := op (world s) in
    Ret a (mkService w (isRadio s) (logger s) (calls s ++ [c])).

Definition call_ (c : Call) (op : W -> W) : M unit :=
  call c (fun w => (tt, op w)).

Definition log (e : LogEntry) : M unit :=
  fun s => Ret tt (mkService (world s) (isRadio s) (logger s ++ [e]) (calls s)).

Definition IsConnected : M bool := fun s => Ret (voice_IsConnected (world s)) s.

Definition NowPlaying : M (option Song) :=
  fun s => Ret (Player_NowPlaying (world s)) s.

(** [h(err)] for an external handler. *)
Definition invoke (h : nat) (err : error) : M unit :=
  call_ (CHandler h err) (fun w => w).

Definition setRadio (b : bool) : M unit :=
  fun s => Ret tt (mkService (world s) b (logger s) (calls s)).

Definition RadioStatus : M bool := fun s => Ret (isRadio s) s.

(** [NewMusicService]: the coordinator over fresh collaborators, with
    [handleError] subscribed to the Player. *)
Definition NewMusicService (w : W) : Service :=
  mkService (Player_SubscribeOnErrors HandleError w) false [] [CSubscribe HandleError].

(** [Service.Play(ctx, query, userID, guildID, channelID)]; [now] is
    [time.Now()].  [go s.Player.Play(song)] is recorded as [CGoPlay] and
    its effect on the Player applied at once. *)
Definition Play (now : Z) (query userID guildID channelID : string)
  : M (option Song * Z * option error) :=
  let* connected := IsConnected in
  if negb connected && bool_decide (channelID = "" ∨ guildID = "") then
    ret (None, 0, Some ErrNotConnected)
  else
    log (LogDebug "Finding song") ;;
    let* r := call (CFindSong query) (FindSong query) in
    match r with
    | inr err => ret (None, 0, Some (Wrap err "find and load song from youtube"))
    | inl song =>
        (if bool_decide (channelID ≠ "" ∨ guildID ≠ "") then
           call_ (CConnect guildID channelID) (Player_Connect guildID channelID)
         else ret tt) ;;
        let song1 := set_LastPlay now song in
        let* '(song2, playbacks, err) :=
          call (CUpsertSongIncPlaybacks song1) (UpsertSongIncPlaybacks song1) in
        let err1 := (fun e => Wrap e "upsert song with increment") <$> err in
        let* song3 := (if bool_decide (userID ≠ "") then
                    call (CIncrementUserRequests song2 userID)
                         (IncrementUserRequests song2 userID)
                  else ret song2) in
        call_ (CGoPlay song3) (Player_Play song3) ;;
        ret (Some song3, playbacks, err1)
    end.

Definition Random (n : Z) : M (list Song * option error) :=
  call (CGetRandomSongs n) (GetRandomSongs n).

(** [playRandomSong(ctx)]: one unit of fuel per activation of the
    function; [songs[0]] panics on an empty slice. *)
Fixpoint playRandomSong (fuel : nat) : M (option error) :=
  match fuel with
  | O => fun _ => OutOfFuel
  | S fuel' =>
      let* '(songs, err) := call (CGetRandomSongs 1) (GetRandomSongs 1) in
      match err with
      | Some e => ret (Some (Wrap e "get 1 random song from bd"))
      | None =>
          match songs with
          | [] => panic
          | song :: _ =>
              if decide (StreamURL song = "") then
                let* r := call (CEnsureStreamInfo song) (EnsureStreamInfo song) in
                match r with
                | inr e =>
                    log (LogError (Wrap e "ensure stream info for radio")) ;;
                    playRandomSong fuel'
                | inl song1 =>
                    call_ (CPlay song1) (Player_Play song1) ;;
                    ret None
                end
              else
                call_ (CPlay song) (Player_Play song) ;;
                ret None
          end
      end
  end.

(** [Service.SetRadio(ctx, b, guildID, channelID)]. *)
Definition SetRadio (fuel : nat) (b : bool) (guildID channelID : string)
  : M (option error) :=
  let refill :=
    let* now := NowPlaying in
    match now with
    | None => playRandomSong fuel
    | Some _ => ret None
    end in
  setRadio b ;;
  if negb b then ret None
  else
    let* connected := IsConnected in
    if negb connected then
      if bool_decide (guildID = "" ∨ channelID = "") then ret (Some ErrNotConnected)
      else
        call_ (CConnect guildID channelID) (Player_Connect guildID channelID) ;;
        refill
    else refill.

(** [Service.handleError(err)]. *)
Definition handleError (fuel : nat) (err : error) : M unit :=
  if Is err ErrQueueEmpty then
    let* radio := RadioStatus in
    if radio then
      let* err1 := playRandomSong fuel in
      match err1 with
      | Some e =>
          log (LogError (Wrap e "radio failed")) ;;
          setRadio false
      | None => ret tt
      end
    else ret tt
  else if negb (Is err ErrManualStop) && negb (Is err EOF) then
    setRadio false ;;
    log (LogErrorMsg "error from player" err)
  else ret tt.

(** The closure [func(err error) { ... h(err) }] that
    [Service.SubscribeOnErrors(h)] hands to the Player. *)
Definition filtered (h : nat) (err : error) : M unit :=
  if Is err EOF || Is err ErrManualStop || Is err ErrQueueEmpty then ret tt
  else invoke h err.

Definition SubscribeOnErrors (h : nat) : M unit :=
  call_ (CSubscribe (Filtered h)) (Player_SubscribeOnErrors (Filtered h)).

(** What the Player runs when it delivers [err] to a registered handler. *)
Definition runHandler (fuel : nat) (hd : ErrorHandler) (err : error) : M unit :=
  match hd with
  | HandleError => handleError fuel err
  | Filtered h => filtered h err
  end.

Definition Stop : M unit :=
  setRadio false ;;
  call_ CStop Player_Stop.

Definition Disconnect : M unit :=
  setRadio false ;;
  call_ CDisconnect Player_Disconnect.

(** One failed round of [playRandomSong]: the provider hands out a
    track without stream reference, the resolver fails on it, the failure
    is logged, and the function is about to call itself on [s']. *)
Inductive retry (s : Service) : Service -> Prop :=
  | retry_intro (song : Song) (rest : list Song) (w1 w2 : W) (e : error) :
      GetRandomSongs 1 (world s) = ((song :: rest, None), w1) ->
      StreamURL song = "" ->
      EnsureStreamInfo song w1 = (inr e, w2) ->
      retry s (mkService w2 (isRadio s)
                 (logger s ++ [LogError (Wrap e "ensure stream info for radio")])
                 (calls s ++ [CGetRandomSongs 1; CEnsureStreamInfo song])).

End Coordinator.

Arguments Service W : clear implicits.
Arguments Res W A : clear implicits.
Arguments M W A : clear implicits.
Arguments Ret {W A} a s.
Arguments Panic {W A} s.
Arguments OutOfFuel {W A}.

End player.

(** ** cmd: the wiring of main.go over in-memory external services *)

Module app.
Import pkg.

(** [KeyFromID] as used to run the model: service and id, joined. *)
#[global] Instance key : firestore.CacheKey :=
  fun id => SongID_Service id ++ "_" ++ SongID_ID id.

(** An in-memory Firestore: the song documents, the per-user documents,
    and the error every call answers with while the service is down. *)
Record MemClient : Type := mkMemClient {
  docs : gmap string Song;
  userDocs : gmap string Song;
  down : option error
}.

#[global] Instance MemClient_API : firestore.ClientAPI MemClient := {
  GetSongByID id c :=
    match down c with
    | Some e => (inr e, c)
    | None =>
        match docs c !! key id with
        | Some s => (inl s, c)
        | None => (inr ErrNotFound, c)
        end
    end;
  client_SetSong song c :=
    match down c with
    | Some e => (Some e, c)
    | None => (None, mkMemClient (<[key (ID song) := song]> (docs c)) (userDocs c) None)
    end;
  GetUserSong id userID c :=
    match down c with
    | Some e => (inr e, c)
    | None =>
        match userDocs c !! (userID ++ "/" ++ key id) with
        | Some s => (inl s, c)
        | None => (inr ErrNotFound, c)
        end
    end;
  SetUserSong song userID c :=
    match down c with
    | Some e => (Some e, c)
    | None =>
        (None, mkMemClient (docs c)
                 (<[userID ++ "/" ++ key (ID song) := song]> (userDocs c)) None)
    end
}.

#[global] Instance MemClient_List : firestore.ListAPI MemClient :=
  fun c =>
    match down c with
    | Some e => (([], Some e), c)
    | None => (((fun kv => ID (snd kv)) <$> map_to_list (docs c), None), c)
    end.

(** An in-memory YouTube: what a search answers, what video a URL leads
    to, what stream URL a format has, and whether downloads fail. *)
Record MemTube : Type := mkMemTube {
  search : string -> option (list youtube.Item) * option error;
  videos : string -> youtube.Video + error;
  streams : youtube.Video -> youtube.Format -> string * option error;
  downloads : option error
}.

#[global] Instance MemTube_Backend : youtube.Backend MemTube := {
  SearchList query _ y := (search y query, y);
  GetVideo url y := (videos y url, y);
  WithAudioChannels_Type formats t :=
    filter (fun f => 0 < youtube.AudioChannels f ∧ youtube.MimeType f = t) formats;
  FormatList_Sort formats := youtube.sortStableByItag formats;
  GetStreamURLContext v f y := (streams y v f, y);
  Download v f fileName y := (downloads y, y);
  filepath_Join dir file := if decide (dir = "") then file else dir ++ "/" ++ file
}.

(** Modelled from the spec: the Player (player.go, not among the
    sources), as far as the coordinator looks at it.  [Connect] links the
    Player to the destination; [Play] "enqueues track; if ... no active
    pipeline, immediately promotes the head of the queue to now
    playing", otherwise "the track is queued"; [Stop] "clears now
    playing ... queue is preserved"; [Disconnect] "tears down the
    connection, clears the queue". *)
Record SimPlayer : Type := mkSimPlayer {
  connection : option (string * string);
  nowPlaying : option Song;
  queue : list Song;
  handlers : list player.ErrorHandler
}.

Record World : Type := mkWorld {
  store : firestore.Service (C := MemClient);
  tube : MemTube;
  config : youtube.Config;
  plyr : SimPlayer
}.

Definition with_store (st : firestore.Service (C := MemClient)) (w : World) : World :=
  mkWorld st (tube w) (config w) (plyr w).

Definition with_tube (y : MemTube) (w : World) : World :=
  mkWorld (store w) y (config w) (plyr w).

Definition with_plyr (p : SimPlayer) (w : World) : World :=
  mkWorld (store w) (tube w) (config w) p.

(** [fireService] behind the [player.Firestore] interface. *)
#[global] Instance World_Firestore : player.Firestore World := {
  UpsertSongIncPlaybacks new w :=
    let '(r, st) := firestore.UpsertSongIncPlaybacks new (store w) in (r, with_store st w);
  IncrementUserRequests song userID w :=
    let '(r, st) := firestore.IncrementUserRequests song userID (store w) in
    (r, with_store st w);
  GetRandomSongs n w :=
    let '(r, st) := firestore.GetRandomSongs n (store w) in (r, with_store st w)
}.

(** [ytClient] behind the [player.YouTube] interface; it shares the
    songs cache with [fireService]. *)
#[global] Instance World_YouTube : player.YouTube World := {
  FindSong query w :=
    let '(r, y) :=
      youtube.FindSong (config w) (firestore.songs (store w)) query (tube w) in
    (r, with_tube y w);
  EnsureStreamInfo song w :=
    let '((song1, err), y) :=
      youtube.EnsureStreamInfo (config w) (firestore.songs (store w)) song (tube w) in
    (match err with Some e => inr e | None => inl song1 end, with_tube y w)
}.

#[global] Instance World_Player : player.Player World := {
  voice_IsConnected w := bool_decide (is_Some (connection (plyr w)));
  Player_Connect guildID channelID w :=
    with_plyr (mkSimPlayer (Some (guildID, channelID)) (nowPlaying (plyr w))
                 (queue (plyr w)) (handlers (plyr w))) w;
  Player_Play song w :=
    match nowPlaying (plyr w) with
    | None =>
        with_plyr (mkSimPlayer (connection (plyr w)) (Some song) (queue (plyr w))
                     (handlers (plyr w))) w
    | Some _ =>
        with_plyr (mkSimPlayer (connection (plyr w)) (nowPlaying (plyr w))
                     (queue (plyr w) ++ [song]) (handlers (plyr w))) w
    end;
  Player_NowPlaying w := nowPlaying (plyr w);
  Player_Stop w :=
    with_plyr (mkSimPlayer (connection (plyr w)) None (queue (plyr w))
                 (handlers (plyr w))) w;
  Player_Disconnect w :=
    with_plyr (mkSimPlayer None None [] (handlers (plyr w))) w;
  Player_SubscribeOnErrors hd w :=
    with_plyr (mkSimPlayer (connection (plyr w)) (nowPlaying (plyr w))
                 (queue (plyr w)) (handlers (plyr w) ++ [hd])) w
}.

(** *** Sample data *)

Definition noTube : MemTube :=
  mkMemTube (fun _ => (None, Some (Foreign "quota exceeded")))
            (fun _ => inr (Foreign "video unavailable"))
            (fun _ _ => ("", Some (Foreign "no stream")))
            None.

Definition idle : SimPlayer := mkSimPlayer None None [] [].

Definition songA : Song :=
  mkSong "Song A" (youtube.videoPrefix ++ "aaa") ServiceYouTube "Artist A"
    (youtube.channelPrefix ++ "chA") "artA" "thumbA" 3 0
    (mkSongID "aaa" ServiceYouTube) "" (S754_zero false).

Definition emptyStore : firestore.Service (C := MemClient) :=
  firestore.mkService ∅ (mkMemClient ∅ ∅ None) [] false
    (firestore.mkRand (fun _ => 0) 0).

(** A store that knows one song, kept in the database and not cached. *)
Definition storeA : firestore.Service (C := MemClient) :=
  firestore.mkService ∅ (mkMemClient {[ key (ID songA) := songA ]} ∅ None)
    [ID songA] false (firestore.mkRand (fun _ => 0) 0).

Definition streamConfig : youtube.Config := youtube.mkConfig false "".
Definition downloadConfig : youtube.Config := youtube.mkConfig true "music".

(** The video behind [songA] and a YouTube that serves it. *)
Definition videoA : youtube.Video :=
  youtube.mkVideo "aaa" "Song A (Official Video)" "Artist A - Topic"
    [youtube.mkThumbnail "small.jpg" 90; youtube.mkThumbnail "large.jpg" 720]
    (S754_finite false 212 0)
    [youtube.mkFormat 251 "audio/webm" 2; youtube.mkFormat 140 "audio/mp4" 2;
     youtube.mkFormat 18 "video/mp4" 2].

Definition tubeA : MemTube :=
  mkMemTube
    (fun _ => (Some [youtube.mkItem "youtube#channel" "" "Artist A" "" "chA" None;
                     youtube.mkItem "youtube#video" "aaa" "Song A" "Artist A" "chA"
                       (Some (youtube.mkDetails (Some "d.jpg") None (Some "m.jpg") None None))],
               None))
    (fun url => if decide (url = youtube.videoPrefix ++ "aaa") then inl videoA
                else inr (Foreign "video unavailable"))
    (fun v f => ("https://cdn/" ++ youtube.video_ID v, None))
    None.

(** [songA] as a finished playback left it in the cache. *)
Definition cachedA : Song :=
  set_Duration (S754_finite false 212 0) (set_StreamURL "https://cdn/aaa" songA).

(** [songA] as a search finds it: nothing counted yet. *)
Definition freshA : Song := set_Playbacks 0 songA.

(** [songA] carrying a stream reference of unknown origin. *)
Definition staleA : Song := set_StreamURL "file:///tmp/aaa.m4a" songA.

(** The collaborators of the wired application. *)
Definition worldA : World := mkWorld storeA tubeA streamConfig idle.
Definition worldEmpty : World := mkWorld emptyStore tubeA streamConfig idle.

(** A store whose database is out of reach. *)
Definition storeDown : firestore.Service (C := MemClient) :=
  firestore.mkService ∅ (mkMemClient ∅ ∅ (Some (Foreign "firestore: unavailable")))
    [ID songA] false (firestore.mkRand (fun _ => 0) 0).

Definition worldDown : World := mkWorld storeDown tubeA streamConfig idle.

(** Coordinators over these worlds, radio off and radio on. *)
Definition serviceA : player.Service World := player.NewMusicService worldA.
Definition radioA : player.Service World := player.mkService worldA true [] [].

(** A provider that always has the same track without stream reference,
    next to a resolver that fails [failures] more times before it works
    again; with [None] it never works again. *)
Record Outage : Type := mkOutage { failures : option nat }.

#[global] Instance Outage_Firestore : player.Firestore Outage := {
  UpsertSongIncPlaybacks new w := ((new, 0, Some (Foreign "unavailable")), w);
  IncrementUserRequests song _ w := (song, w);
  GetRandomSongs _ w := (([songA], None), w)
}.

#[global] Instance Outage_YouTube : player.YouTube Outage := {
  FindSong _ w := (inr ErrSongNotFound, w);
  EnsureStreamInfo song w :=
    match failures w with
    | None => (inr (Foreign "video unavailable"), w)
    | Some (S n) => (inr (Foreign "video unavailable"), mkOutage (Some n))
    | Some O => (inl (set_StreamURL "https://cdn/aaa" song), w)
    end
}.

#[global] Instance Outage_Player : player.Player Outage := {
  voice_IsConnected _ := true;
  Player_Connect _ _ w := w;
  Player_Play _ w := w;
  Player_NowPlaying _ := None;
  Player_Stop w := w;
  Player_Disconnect w := w;
  Player_SubscribeOnErrors _ w := w
}.

Definition radioOutage (left : option nat) : player.Service Outage :=
  player.mkService (mkOutage left) true [] [].

(** [storeA] after [songA] was looked up once: the song is cached. *)
Definition loadedA : firestore.Service (C := MemClient) :=
  snd (firestore.GetSong (ID songA) storeA).

(** A store that has [songA] cached while its database is out of reach. *)
Definition storeCachedDown : firestore.Service (C := MemClient) :=
  firestore.mkService {[ key (ID songA) := songA ]}
    (mkMemClient ∅ ∅ (Some (Foreign "firestore: unavailable")))
    [ID songA] false (firestore.mkRand (fun _ => 0) 0).

(** A YouTube that serves [videoA] while downloads fail. *)
Definition tubeNoDisk : MemTube :=
  mkMemTube (search tubeA) (videos tubeA) (streams tubeA) (Some (Foreign "disk full")).

(** The wired application with a YouTube that answers nothing, and with
    the voice client already connected. *)
Definition worldNoTube : World := mkWorld storeA noTube streamConfig idle.
Definition worldLinked : World :=
  mkWorld storeA tubeA streamConfig (mkSimPlayer (Some ("guild", "lobby")) None [] []).

End app.

(** * Properties *)

(** ** The radio coordinator *)

Section CoordinatorFacts.
Import pkg player.
Context {W : Type} `{!Firestore W} `{!YouTube W} `{!Player W}.

Implicit Types (s : Service W) (err : error) (song : Song).

(** Runs the coordinator's monad one layer further. *)
Ltac run :=
  repeat (progress (cbn [bind ret call call_ log panic setRadio RadioStatus
                          IsConnected NowPlaying invoke fst snd
                          world isRadio logger calls] in *
                    || unfold bind, ret, call, call_, log, panic, setRadio,
                         RadioStatus, IsConnected, NowPlaying, invoke in * )).

(** More fuel does not change a result that was reached. *)
Lemma playRandomSong_fuel_mono fuel s :
  playRandomSong fuel s ≠ OutOfFuel ->
  forall more, playRandomSong (fuel + more) s = playRandomSong fuel s.
Proof.
  revert s. induction fuel as [|fuel IH]; intros s Hne more; [now destruct Hne|].
  revert Hne. simpl. run.
  destruct (GetRandomSongs 1 (world s)) as [[songs err] w1].
  destruct err as [e|]; [easy|].
  destruct songs as [|song rest]; [easy|].
  destruct (decide (StreamURL song = "")) as [Hurl|Hurl]; [|easy].
  run.
  destruct (EnsureStreamInfo song w1) as [[song1|e] w2]; run; [easy|].
  intros Hne. now apply IH.
Qed.

(** A failed round costs one unit of fuel. *)
Lemma playRandomSong_retry fuel s s' :
  retry s s' -> playRandomSong (S fuel) s = playRandomSong fuel s'.
Proof.
  intros [song rest w1 w2 e Hget Hurl Hres].
  simpl. run. rewrite Hget. 
  destruct (decide (StreamURL song = "")) as [_|Hne]; [|easy].
  run. rewrite Hres. run.
  now rewrite <- app_assoc.
Qed.

(** An activation either finishes without calling itself or fails a round. *)
Lemma retry_or_done s :
  playRandomSong 1 s ≠ OutOfFuel ∨ ∃ s', retry s s'.
Proof.
  simpl. run.
  destruct (GetRandomSongs 1 (world s)) as [[songs err] w1] eqn:Hget.
  destruct err as [e|]; [now left|].
  destruct songs as [|song rest]; [now left|].
  destruct (decide (StreamURL song = "")) as [Hurl|]; [|now left].
  run.
  destruct (EnsureStreamInfo song w1) as [[song1|e] w2] eqn:Hres; run; [now left|].
  right. eexists. econstructor; eauto.
Qed.

(** The refill procedure when the first track is ready or resolves. *)
Lemma playRandomSong_plays fuel s song rest w1 :
  GetRandomSongs 1 (world s) = ((song :: rest, None), w1) ->
  (StreamURL song ≠ "" ->
   playRandomSong (S fuel) s =
     Ret None (mkService (Player_Play song w1) (isRadio s) (logger s)
                 (calls s ++ [CGetRandomSongs 1; CPlay song]))) ∧
  (StreamURL song = "" -> forall song1 w2,
   EnsureStreamInfo song w1 = (inl song1, w2) ->
   playRandomSong (S fuel) s =
     Ret None (mkService (Player_Play song1 w2) (isRadio s) (logger s)
                 (calls s ++ [CGetRandomSongs 1; CEnsureStreamInfo song; CPlay song1]))).
Proof.
  intros Hget. split.
  - intros Hurl. simpl. run. rewrite Hget.
    destruct (decide (StreamURL song = "")); [easy|].
    run. now rewrite <- app_assoc.
  - intros Hurl song1 w2 Hres. simpl. run. rewrite Hget.
    destruct (decide (StreamURL song = "")); [|easy].
    run. rewrite Hres. run. now rewrite <- !app_assoc.
Qed.

(** The refill procedure when the provider has nothing to offer. *)
Lemma playRandomSong_exhausted fuel s songs e w1 :
  GetRandomSongs 1 (world s) = ((songs, Some e), w1) ->
  playRandomSong (S fuel) s =
    Ret (Some (Wrap e "get 1 random song from bd"))
        (mkService w1 (isRadio s) (logger s) (calls s ++ [CGetRandomSongs 1])).
Proof. intros Hget. simpl. run. now rewrite Hget. Qed.

(** C1: a QueueEmpty event that reaches the coordinator while the radio
    is on makes it ask the provider for one random track; a track that
    has a stream reference is played as it is, a track without one goes
    through the resolver first and the resolved track is played.  Nothing
    else is called, nothing is logged, and the radio stays on. *)
Theorem C1_queue_empty_refills fuel err s song rest w1 :
  Is err ErrQueueEmpty = true ->
  isRadio s = true ->
  GetRandomSongs 1 (world s) = ((song :: rest, None), w1) ->
  (StreamURL song ≠ "" ->
   handleError (S fuel) err s =
     Ret tt (mkService (Player_Play song w1) true (logger s)
               (calls s ++ [CGetRandomSongs 1; CPlay song]))) ∧
  (StreamURL song = "" -> forall song1 w2,
   EnsureStreamInfo song w1 = (inl song1, w2) ->
   handleError (S fuel) err s =
     Ret tt (mkService (Player_Play song1 w2) true (logger s)
               (calls s ++ [CGetRandomSongs 1; CEnsureStreamInfo song; CPlay song1]))).
Proof.
  intros Hq Hradio Hget.
  destruct (playRandomSong_plays fuel s song rest w1 Hget) as [Hready Hresolve].
  split.
  - intros Hurl. unfold handleError. rewrite Hq. run. rewrite Hradio.
    rewrite (Hready Hurl). now rewrite Hradio.
  - intros Hurl song1 w2 Hres. unfold handleError. rewrite Hq. run. rewrite Hradio.
    rewrite (Hresolve Hurl song1 w2 Hres). now rewrite Hradio.
Qed.

(** C2: [Play] answers [ErrNotConnected], with no track and without
    touching any collaborator, exactly when the voice client is not
    connected and the guild or the channel is missing; when it is
    connected or both are given, the search is started and whatever error
    comes back is not [ErrNotConnected]. *)
Theorem C2_play_not_connected now query userID guildID channelID s :
  (voice_IsConnected (world s) = false ->
   guildID = "" ∨ channelID = "" ->
   Play now query userID guildID channelID s = Ret (None, 0, Some ErrNotConnected) s) ∧
  (voice_IsConnected (world s) = true ∨ (guildID ≠ "" ∧ channelID ≠ "") ->
   ∃ track n failure s',
     Play now query userID guildID channelID s = Ret (track, n, failure) s' ∧
     failure ≠ Some ErrNotConnected ∧
     ∃ more, calls s' = (calls s ++ CFindSong query :: more)%list).
Proof.
  split.
  - intros Hconn Hmissing. unfold Play. run. rewrite Hconn.
    rewrite bool_decide_true by tauto. reflexivity.
  - intros Hok. unfold Play. run.
    assert (negb (voice_IsConnected (world s))
            && bool_decide (channelID = "" ∨ guildID = "") = false) as ->.
    { destruct Hok as [-> | [Hg Hc]]; [reflexivity|].
      rewrite bool_decide_false by tauto. apply andb_false_r. }
    destruct (FindSong query (world s)) as [[song|e] w1].
    + run.
      destruct (bool_decide (channelID ≠ "" ∨ guildID ≠ "")); run;
        match goal with
        | |- context [UpsertSongIncPlaybacks ?x ?w] =>
            destruct (UpsertSongIncPlaybacks x w) as [[[song2 n] e] w3]
        end; run;
        destruct (bool_decide (userID ≠ "")); run;
        try match goal with
        | |- context [IncrementUserRequests ?x ?u ?w] =>
            destruct (IncrementUserRequests x u w) as [song3 w4]
        end; run;
        do 4 eexists; (split; [reflexivity|]);
        (split; [destruct e; discriminate|]);
        rewrite <- !app_assoc; eexists; reflexivity.
    + run. do 4 eexists. split; [reflexivity|]. split; [discriminate|].
      eexists. reflexivity.
Qed.

Lemma handed_app (cs cs' : list Call) :
  handed (cs ++ cs') = (handed cs ++ handed cs')%list.
Proof.
  induction cs as [|c cs IH]; [reflexivity|].
  destruct c; simpl; now rewrite ?IH.
Qed.

Lemma requests_app (cs cs' : list Call) :
  requests (cs ++ cs') = (requests cs + requests cs')%nat.
Proof.
  induction cs as [|c cs IH]; [reflexivity|].
  destruct c; simpl; now rewrite ?IH.
Qed.

(** The refill procedure calls no external handler. *)
Lemma playRandomSong_hands_nothing fuel s a s' :
  playRandomSong fuel s = Ret a s' -> handed (calls s') = handed (calls s).
Proof.
  revert s. induction fuel as [|fuel IH]; intros s; [discriminate|].
  simpl. run.
  destruct (GetRandomSongs 1 (world s)) as [[songs err] w1].
  destruct err as [e|].
  { intros [= <- <-]. simpl. rewrite handed_app. simpl. apply app_nil_r. }
  destruct songs as [|song rest]; [discriminate|].
  destruct (decide (StreamURL song = "")) as [Hurl|Hurl]; run.
  - destruct (EnsureStreamInfo song w1) as [[song1|e] w2]; run.
    + intros [= <- <-]. simpl. rewrite !handed_app. simpl. now rewrite !app_nil_r.
    + intros Hrec. apply IH in Hrec. rewrite Hrec. simpl.
      rewrite !handed_app. simpl. now rewrite !app_nil_r.
  - intros [= <- <-]. simpl. rewrite !handed_app. simpl. now rewrite !app_nil_r.
Qed.

(** The QueueEmpty event when the provider has nothing to offer: the
    radio goes off and the failure is written to the log, once. *)
Lemma handleError_exhausted fuel err s songs e w1 :
  Is err ErrQueueEmpty = true ->
  isRadio s = true ->
  GetRandomSongs 1 (world s) = ((songs, Some e), w1) ->
  handleError (S fuel) err s =
    Ret tt (mkService w1 false
              (logger s ++ [LogError (Wrap (Wrap e "get 1 random song from bd") "radio failed")])
              (calls s ++ [CGetRandomSongs 1])).
Proof.
  intros Hq Hradio Hget. unfold handleError. rewrite Hq. run. rewrite Hradio.
  rewrite (playRandomSong_exhausted fuel s songs e w1 Hget). reflexivity.
Qed.

(** C4: the handler that [SubscribeOnErrors] registers for an external
    subscriber is the filtering closure; run on a manual stop, an
    end-of-stream or a QueueEmpty signal it returns without calling the
    subscriber; run on any other error it calls the subscriber once with
    that error, and the coordinator's own handler switches the radio off
    and logs the error.  The coordinator's own handler never calls an
    external subscriber. *)
Theorem C4_subscribers_see_failures_only fuel h err s :
  SubscribeOnErrors h s =
    Ret tt (mkService (Player_SubscribeOnErrors (Filtered h) (world s)) (isRadio s)
              (logger s) (calls s ++ [CSubscribe (Filtered h)])) ∧
  (Is err ErrManualStop = true ∨ Is err EOF = true ∨ Is err ErrQueueEmpty = true ->
   runHandler fuel (Filtered h) err s = Ret tt s) ∧
  (Is err ErrManualStop = false -> Is err EOF = false -> Is err ErrQueueEmpty = false ->
   runHandler fuel (Filtered h) err s =
     Ret tt (mkService (world s) (isRadio s) (logger s) (calls s ++ [CHandler h err])) ∧
   runHandler fuel HandleError err s =
     Ret tt (mkService (world s) false
               (logger s ++ [LogErrorMsg "error from player" err]) (calls s))) ∧
  (forall s', runHandler fuel HandleError err s = Ret tt s' ->
   handed (calls s') = handed (calls s)).
Proof.
  split; [reflexivity|]. split; [|split].
  - intros Hsw. simpl. unfold filtered.
    assert (Is err EOF || Is err ErrManualStop || Is err ErrQueueEmpty = true) as ->.
    { destruct Hsw as [-> | [-> | ->]]; rewrite ?orb_true_r; reflexivity. }
    reflexivity.
  - intros Hm He Hq. simpl. unfold filtered, handleError.
    rewrite Hm, He, Hq. simpl. split; reflexivity.
  - intros s'. simpl. unfold handleError.
    destruct (Is err ErrQueueEmpty).
    + run. destruct (isRadio s); [|now intros [= <-]].
      destruct (playRandomSong fuel s) as [[e|] s1|s1|] eqn:Hplay; try discriminate.
      * run. intros [= <-]. simpl. eapply playRandomSong_hands_nothing, Hplay.
      * intros [= <-]. eapply playRandomSong_hands_nothing, Hplay.
    + destruct (negb (Is err ErrManualStop) && negb (Is err EOF)); run;
        now intros [= <-].
Qed.

(** C9: [Stop] and [Disconnect] return with the radio flag down,
    whatever the flag and the Player were before. *)
Theorem C9_stop_disconnect_radio_off s :
  (∃ s', Stop s = Ret tt s' ∧ isRadio s' = false ∧
         world s' = Player_Stop (world s) ∧ calls s' = (calls s ++ [CStop])%list) ∧
  (∃ s', Disconnect s = Ret tt s' ∧ isRadio s' = false ∧
         world s' = Player_Disconnect (world s) ∧
         calls s' = (calls s ++ [CDisconnect])%list).
Proof. split; eexists; repeat split; reflexivity. Qed.

(** C10: when the song is found and resolved and the play-count update
    fails with [e], [Play] still hands the song to the Player and returns
    it together with the storage error (wrapped) and the count the
    storage gave back. *)
Theorem C10_storage_failure_still_plays
    now query userID guildID channelID s song w1 song2 n e w3 :
  voice_IsConnected (world s) = true ∨ (guildID ≠ "" ∧ channelID ≠ "") ->
  FindSong query (world s) = (inl song, w1) ->
  UpsertSongIncPlaybacks (set_LastPlay now song)
    (if bool_decide (channelID ≠ "" ∨ guildID ≠ "")
     then Player_Connect guildID channelID w1 else w1) = ((song2, n, Some e), w3) ->
  let counted :=
    if bool_decide (userID ≠ "") then IncrementUserRequests song2 userID w3
    else (song2, w3) in
  ∃ s',
    Play now query userID guildID channelID s =
      Ret (Some (fst counted), n, Some (Wrap e "upsert song with increment")) s' ∧
    world s' = Player_Play (fst counted) (snd counted) ∧
    last (calls s') = Some (CGoPlay (fst counted)) ∧
    isRadio s' = isRadio s.
Proof.
  intros Hok Hfind Hupsert counted. subst counted. unfold Play. run.
  assert (negb (voice_IsConnected (world s))
          && bool_decide (channelID = "" ∨ guildID = "") = false) as ->.
  { destruct Hok as [-> | [Hg Hc]]; [reflexivity|].
    rewrite bool_decide_false by tauto. apply andb_false_r. }
  rewrite Hfind. run.
  destruct (bool_decide (channelID ≠ "" ∨ guildID ≠ "")); run;
    rewrite Hupsert; run;
    destruct (bool_decide (userID ≠ "")); run;
    try destruct (IncrementUserRequests song2 userID w3) as [song3 w4]; run;
    eexists; (split; [reflexivity|]); simpl;
    repeat split; apply last_snoc.
Qed.

(** C6: [SetRadio(true, guild, channel)] raises the flag, then: without
    a connection and without a full destination it fails with
    [ErrNotConnected]; without a connection and with a destination it
    connects the Player.  In the cases that go on, a Player that plays
    something ends the call with nil and no further step; a Player that
    plays nothing makes it run the refill at once and return its result:
    one request for a random track, which is played as it is when it has
    a stream reference, goes through the resolver and is played as
    resolved when it has none, and is tried again by [playRandomSong]
    (one activation less to go) after a logged resolution failure; a
    provider error comes back wrapped, with nothing played. *)
Theorem C6_set_radio_on fuel guildID channelID s :
  let on := mkService (world s) true (logger s) (calls s) in
  let linked :=
    mkService (Player_Connect guildID channelID (world s)) true (logger s)
      (calls s ++ [CConnect guildID channelID]) in
  let start := if voice_IsConnected (world s) then on else linked in
  (voice_IsConnected (world s) = false ->
   guildID = "" ∨ channelID = "" ->
   SetRadio fuel true guildID channelID s = Ret (Some ErrNotConnected) on) ∧
  (voice_IsConnected (world s) = true ∨ (guildID ≠ "" ∧ channelID ≠ "") ->
   (forall playing, Player_NowPlaying (world start) = Some playing ->
    SetRadio fuel true guildID channelID s = Ret None start) ∧
   (Player_NowPlaying (world start) = None ->
    SetRadio fuel true guildID channelID s = playRandomSong fuel start ∧
    (forall song rest w1,
       GetRandomSongs 1 (world start) = ((song :: rest, None), w1) ->
       (StreamURL song ≠ "" ->
        SetRadio (S fuel) true guildID channelID s =
          Ret None (mkService (Player_Play song w1) true (logger s)
                      (calls start ++ [CGetRandomSongs 1; CPlay song]))) ∧
       (StreamURL song = "" -> forall song1 w2,
        EnsureStreamInfo song w1 = (inl song1, w2) ->
        SetRadio (S fuel) true guildID channelID s =
          Ret None (mkService (Player_Play song1 w2) true (logger s)
                      (calls start ++
                       [CGetRandomSongs 1; CEnsureStreamInfo song; CPlay song1]))) ∧
       (StreamURL song = "" -> forall e w2,
        EnsureStreamInfo song w1 = (inr e, w2) ->
        SetRadio (S fuel) true guildID channelID s =
          playRandomSong fuel
            (mkService w2 true
               (logger s ++ [LogError (Wrap e "ensure stream info for radio")])
               (calls start ++ [CGetRandomSongs 1; CEnsureStreamInfo song])))) ∧
    (forall songs e w1,
       GetRandomSongs 1 (world start) = ((songs, Some e), w1) ->
       SetRadio (S fuel) true guildID channelID s =
         Ret (Some (Wrap e "get 1 random song from bd"))
             (mkService w1 true (logger s) (calls start ++ [CGetRandomSongs 1]))))).
Proof.
  intros on linked start. split.
  { intros Hconn Hmissing. unfold SetRadio. run. simpl. rewrite Hconn. simpl.
    now rewrite bool_decide_true. }
  intros Hgo.
  assert (forall f, SetRadio f true guildID channelID s =
            match Player_NowPlaying (world start) with
            | None => playRandomSong f start
            | Some _ => Ret None start
            end) as Hrun.
  { intros f. subst start on linked. unfold SetRadio. run. simpl.
    destruct (voice_IsConnected (world s)) eqn:Hconn; simpl.
    - now destruct (Player_NowPlaying _).
    - rewrite bool_decide_false by (destruct Hgo as [Hc|Hd]; [discriminate|tauto]).
      now destruct (Player_NowPlaying _). }
  assert (isRadio start = true ∧ logger start = logger s) as [Hflag Hlog].
  { subst start on linked. now destruct (voice_IsConnected (world s)). }
  split.
  { intros playing Hplaying. now rewrite Hrun, Hplaying. }
  intros Hidle. split; [now rewrite Hrun, Hidle|]. split.
  - intros song rest w1 Hget.
    destruct (playRandomSong_plays fuel start song rest w1 Hget) as [Hready Hresolve].
    split; [|split].
    + intros Hurl. rewrite Hrun, Hidle, (Hready Hurl). now rewrite Hflag, Hlog.
    + intros Hurl song1 w2 Hres.
      rewrite Hrun, Hidle, (Hresolve Hurl song1 w2 Hres). now rewrite Hflag, Hlog.
    + intros Hurl e w2 Hres. rewrite Hrun, Hidle.
      rewrite (playRandomSong_retry fuel start _
                 (retry_intro start song rest w1 w2 e Hget Hurl Hres)).
      now rewrite Hflag, Hlog.
  - intros songs e w1 Hget. rewrite Hrun, Hidle.
    rewrite (playRandomSong_exhausted fuel start songs e w1 Hget).
    now rewrite Hflag, Hlog.
Qed.

(** The rounds that failed: one provider request and one log entry each. *)
Lemma retry_counts k s sk :
  nsteps retry k s sk ->
  requests (calls sk) = (requests (calls s) + k)%nat ∧
  length (logger sk) = (length (logger s) + k)%nat.
Proof.
  induction 1 as [s|k s s1 sk Hstep _ [IHr IHl]]; [now rewrite !Nat.add_0_r|].
  destruct Hstep as [song rest w1 w2 e _ _ _]. simpl in IHr, IHl.
  rewrite requests_app in IHr. rewrite length_app in IHl. simpl in IHr, IHl.
  split; lia.
Qed.

(** After [k] failed rounds the call is more than [k] activations deep. *)
Lemma retry_needs_fuel k s sk :
  nsteps retry k s sk -> forall fuel, (fuel <= k)%nat -> playRandomSong fuel s = OutOfFuel.
Proof.
  induction 1 as [s|k s s1 sk Hstep _ IH]; intros fuel Hle.
  - now replace fuel with 0%nat by lia.
  - destruct fuel as [|fuel]; [reflexivity|].
    rewrite (playRandomSong_retry _ _ _ Hstep). apply IH. lia.
Qed.

Lemma retry_then_settle k s sk r :
  nsteps retry k s sk -> playRandomSong 1 sk = r -> r ≠ OutOfFuel ->
  forall more, playRandomSong (k + 1 + more) s = r.
Proof.
  induction 1 as [s|k s s1 sk Hstep _ IH]; intros Hr Hne more.
  - simpl plus. rewrite <- Hr. apply (playRandomSong_fuel_mono 1); congruence.
  - replace (S k + 1 + more)%nat with (S (k + 1 + more)) by lia.
    rewrite (playRandomSong_retry _ _ _ Hstep). now apply IH.
Qed.

(** When no round can ever finish, no amount of fuel is enough. *)
Lemma retry_forever fuel s :
  (forall s', rtc retry s s' -> ∃ s'', retry s' s'') ->
  playRandomSong fuel s = OutOfFuel.
Proof.
  revert s. induction fuel as [|fuel IH]; intros s Hall; [reflexivity|].
  destruct (Hall s) as [s1 Hstep]; [constructor|].
  rewrite (playRandomSong_retry _ _ _ Hstep). apply IH.
  intros s' Hreach. apply Hall. now apply rtc_l with s1.
Qed.

(** C5, as the code has it: a failed resolution makes [playRandomSong]
    call itself for another random track.  After [k] failed rounds it has
    made [k] provider requests, logged [k] failures and is more than [k]
    activations deep; it returns as soon as an activation ends without a
    failed resolution (a provider error, a track that is played, an empty
    answer), with that activation's result; and when every further round
    fails it never returns.  There is no bound on [k]. *)
Theorem C5_retry_by_recursion k s sk :
  nsteps retry k s sk ->
  requests (calls sk) = (requests (calls s) + k)%nat ∧
  length (logger sk) = (length (logger s) + k)%nat ∧
  (forall fuel, (fuel <= k)%nat -> playRandomSong fuel s = OutOfFuel) ∧
  (playRandomSong 1 sk ≠ OutOfFuel ->
   forall more, playRandomSong (k + 1 + more) s = playRandomSong 1 sk) ∧
  ((forall s', rtc retry sk s' -> ∃ s'', retry s' s'') ->
   forall fuel, playRandomSong fuel s = OutOfFuel).
Proof.
  intros Hk. destruct (retry_counts _ _ _ Hk) as [Hr Hl].
  repeat split; try assumption.
  - now apply retry_needs_fuel with sk.
  - intros Hne more. now apply retry_then_settle with sk.
  - intros Hall fuel. apply retry_forever.
    intros s' Hreach.
    destruct (rtc_nsteps_1 _ _ Hreach) as [n Hn].
    (* every state reachable from [s] by failed rounds can fail again *)
    clear Hr Hl Hreach. revert n s' Hn. revert Hall. revert Hk.
    revert s. induction k as [|k IH]; intros s Hk Hall n s' Hn.
    + inversion Hk; subst. apply Hall. eapply rtc_nsteps_2, Hn.
    + inversion Hk as [|k' a s1 c Hstep Hrest]; subst.
      destruct n as [|n].
      * inversion Hn; subst. now exists s1.
      * inversion Hn as [|n' a s1' c Hstep' Hrest']; subst.
        assert (s1' = s1) as ->.
        { destruct Hstep as [song rest w1 w2 e Hg Hu He].
          destruct Hstep' as [song' rest' w1' w2' e' Hg' Hu' He'].
          rewrite Hg in Hg'. injection Hg' as <- <- <-.
          rewrite He in He'. now injection He' as <- <-. }
        now apply (IH s1 Hrest Hall n s').
Qed.

End CoordinatorFacts.

(** ** Songs and their merge *)

Section SongFacts.
Import pkg.

Lemma int_wrap_id (z : Z) : int_min <= z <= int_max -> int_wrap z = z.
Proof.
  unfold int_min, int_max, int_wrap. intros Hz.
  rewrite Z.mod_small; lia.
Qed.

Lemma keep_str_mine (mine theirs : string) : mine ≠ "" -> keep_str mine theirs = mine.
Proof. intros Hne. unfold keep_str. now destruct (decide (mine = "")). Qed.

Lemma keep_str_theirs (theirs : string) : keep_str "" theirs = theirs.
Proof. reflexivity. Qed.

Lemma keep_str_empty (mine : string) : keep_str mine "" = mine.
Proof. unfold keep_str. now destruct (decide (mine = "")). Qed.

Lemma keep_int_zero (mine : Z) : keep_int mine 0 = mine.
Proof. unfold keep_int. now destruct (decide (mine = 0)). Qed.

(** The merge leaves every populated field of the receiver alone. *)
Lemma MergeNoOverride_keeps (s : Song) (new : option Song) :
  keeps_populated s (MergeNoOverride s new).
Proof.
  destruct new as [n|]; [|now repeat split].
  unfold keeps_populated, MergeNoOverride, keep_str, keep_int, keep_id. simpl.
  repeat split; intros Hne;
    match goal with |- context [decide ?P] => now destruct (decide P) end.
Qed.

(** The merge fills every empty field of the receiver from the other song. *)
Lemma MergeNoOverride_fills (s n : Song) :
  filled_from n s (MergeNoOverride s (Some n)).
Proof.
  unfold filled_from, MergeNoOverride, keep_str, keep_int, keep_id. simpl.
  repeat split; intros ->; reflexivity.
Qed.

Lemma keeps_populated_set_Playbacks (a b : Song) (v : Z) :
  keeps_populated a b -> keeps_populated a (set_Playbacks v b).
Proof. exact id. Qed.

Lemma filled_from_set_Playbacks (o a b : Song) (v : Z) :
  filled_from o a b -> filled_from o a (set_Playbacks v b).
Proof. exact id. Qed.

End SongFacts.

(** ** The song store *)

Section StoreFacts.
Import pkg firestore.
Context {C : Type} `{!ClientAPI C} `{!CacheKey}.

Implicit Types (s : Service (C := C)) (new old : Song).

(** What [GetSong] leaves in the cache is what it returns. *)
Lemma GetSong_cached id s song s1 :
  GetSong id s = (inl song, s1) -> songs s1 !! KeyFromID id = Some song.
Proof.
  unfold GetSong.
  destruct (songs s !! KeyFromID id) as [cached|] eqn:Hhit.
  - now intros [= <- <-].
  - destruct (GetSongByID id (client s)) as [[found|err] c].
    + intros [= <- <-]. simpl. apply lookup_insert_eq.
    + destruct (decide (err = ErrNotFound)); discriminate.
Qed.

(** A successful [SetSong] stores the song in the database and the cache. *)
Lemma SetSong_stored song s s' :
  SetSong song s = (None, s') ->
  songs s' !! KeyFromID (ID song) = Some song ∧
  client_SetSong song (client s) = (None, client s') ∧
  updated s' = true.
Proof.
  unfold SetSong. simpl.
  destruct (client_SetSong song (client s)) as [[e|] c]; [discriminate|].
  intros [= <-]. simpl. split; [apply lookup_insert_eq|easy].
Qed.

(** C8, as the code has it: for a track that comes in with play count
    zero, a successful [UpsertSongIncPlaybacks] returns the play count of
    the stored track (the cache entry, else the database document; zero
    when there is none) plus one, in Go's [int]; the record it stores in
    the database and in the cache carries that count; and the record is
    the incoming one with its populated fields untouched and its empty
    fields taken from the stored track. *)
Theorem C8_upsert_counts_from_stored new s new' n s' :
  UpsertSongIncPlaybacks new s = ((new', n, None), s') ->
  Playbacks new = 0 ->
  let stored := value_of (fst (GetSong (ID new) s)) in
  let prev := from_option Playbacks 0 stored in
  n = int_wrap (prev + 1) ∧
  (int_min <= prev < int_max -> n = prev + 1) ∧
  (stored = None -> n = 1) ∧
  Playbacks new' = n ∧
  songs s' !! KeyFromID (ID new') = Some new' ∧
  (∃ c, client_SetSong new' c = (None, client s')) ∧
  new' = set_Playbacks n (MergeNoOverride new stored) ∧
  keeps_populated new new' ∧
  (forall old, stored = Some old -> filled_from old new new').
Proof.
  intros Hup Hzero stored prev. subst prev stored.
  unfold UpsertSongIncPlaybacks in Hup.
  destruct (GetSong (ID new) s) as [r s1]. simpl.
  destruct (other_than ErrNotFound (err_of r)) as [err|] eqn:Hguard; [discriminate|].
  set (merged := MergeNoOverride new (value_of r)) in *.
  destruct (SetSong (set_Playbacks (int_wrap (Playbacks merged + 1)) merged) s1)
    as [[e|] s2] eqn:Hset; [discriminate|].
  injection Hup as <- <- <-.
  apply SetSong_stored in Hset as (Hcache & Hdb & _).
  assert (Playbacks merged = from_option Playbacks 0 (value_of r)) as Hprev.
  { subst merged. destruct r as [old|err]; simpl; [|assumption].
    rewrite Hzero. reflexivity. }
  simpl. rewrite Hprev in Hcache, Hdb |- *.
  split; [reflexivity|]. split; [|split; [|split; [|split; [|split; [|split; [|split]]]]]].
  - intros Hrange. apply int_wrap_id. unfold int_min, int_max in *. lia.
  - now intros ->.
  - reflexivity.
  - exact Hcache.
  - eexists. exact Hdb.
  - reflexivity.
  - apply keeps_populated_set_Playbacks, MergeNoOverride_keeps.
  - intros old Hold. apply filled_from_set_Playbacks.
    subst merged. rewrite Hold. apply MergeNoOverride_fills.
Qed.

End StoreFacts.

Section ProviderFacts.
Import pkg firestore.
Context {C : Type} `{!ClientAPI C} `{!CacheKey}.

Implicit Types (s : Service (C := C)).

(** The provider's terminal error: nothing is preloaded. *)
Lemma GetRandomSongs_no_candidates n s :
  songsShort s = [] ->
  GetRandomSongs n s = (([], Some (New "no preloaded songs")), s).
Proof. intros Hnil. unfold GetRandomSongs. now rewrite Hnil. Qed.

(** Asked for one song, the provider answers with one song or an error. *)
Lemma GetRandomSongs_one s songs s' :
  GetRandomSongs 1 s = ((songs, None), s') -> length songs = 1%nat.
Proof.
  unfold GetRandomSongs.
  destruct (decide (Z.of_nat (length (songsShort s)) = 0)) as [|Hmax]; [discriminate|].
  change (Z.to_nat (int_wrap (1 * 10))) with 10%nat.
  cbn [sample]. rewrite map_size_empty.
  destruct (decide (Z.of_nat 0 < 1)) as [_|Hlt]; [|now destruct Hlt].
  destruct (Intn _ (rand s)) as [i r1]. cbn [sample].
  rewrite insert_empty, map_size_singleton.
  destruct (decide (Z.of_nat 1 < 1)) as [Hlt|_]; [lia|].
  rewrite map_to_list_singleton. simpl.
  destruct (GetSong _ _) as [[song|err] s1]; [|discriminate].
  now intros [= <- <-].
Qed.

End ProviderFacts.

(** ** The resolver *)

Section ResolverFacts.
Import pkg youtube.
Context {Y : Type} `{!Backend Y} `{!firestore.CacheKey}.

Implicit Types (song cached : Song) (cache : gmap string Song).

Lemma songFromInfo_Seconds v : Duration (songFromInfo v) = Seconds v.
Proof. unfold songFromInfo. now destruct (getYTDLImages _). Qed.

Lemma songFromInfo_StreamURL v : StreamURL (songFromInfo v) = "".
Proof. unfold songFromInfo. now destruct (getYTDLImages _). Qed.

Lemma songFromInfo_Playbacks v : Playbacks (songFromInfo v) = 0.
Proof. unfold songFromInfo. now destruct (getYTDLImages _). Qed.

(** C7, as the code has it: when [EnsureStreamInfo] succeeds, identity,
    title, URL, service, artist, artwork, thumbnail and last-play date
    keep their values wherever the track had them, and the play count is
    unchanged.  The stream reference is always assigned: on a cache
    miss it becomes the reference obtained for the video (the download
    path, or the stream URL of the format with the least itag), while the
    duration is kept when the track had one and is the video's otherwise;
    on a cache hit whose entry has a stream reference, stream reference
    and duration become those of the entry, and nothing else changes. *)
Theorem C7_resolution_frame config cache song y song' y' :
  EnsureStreamInfo config cache song y = ((song', None), y') ->
  keeps_populated song song' ∧
  Playbacks song' = Playbacks song ∧
  match cache !! firestore.KeyFromID (ID song) with
  | Some cached =>
      song' = set_Duration (Duration song') (set_StreamURL (StreamURL song') song) ∧
      (StreamURL cached ≠ "" ->
       StreamURL song' = StreamURL cached ∧ Duration song' = Duration cached)
  | None =>
      ∃ video y1,
        GetVideo (URL song) y = (inl video, y1) ∧
        Duration song' = keep_float (Duration song) (Seconds video) ∧
        if cfg_Download config then
          StreamURL song' = filepath_Join (OutputDir config) (video_ID video ++ videoFormat)
        else
          GetStreamURLContext video
            (sortStableByItag (WithAudioChannels_Type (Formats video) videoType) !!! 0%nat)
            y1 = ((StreamURL song', None), y')
  end.
Proof.
  unfold EnsureStreamInfo.
  destruct (cache !! firestore.KeyFromID (ID song)) as [cached|].
  { intros [= <- <-]. repeat split. }
  destruct (GetVideo (URL song) y) as [[video|err] y1]; [|discriminate].
  destruct (decide (length _ = 0%nat)) as [|Hsome]; [discriminate|].
  destruct (cfg_Download config).
  - destruct (Download _ _ _ y1) as [[e|] y2]; [discriminate|].
    intros [= <- <-].
    split; [|split].
    + exact (MergeNoOverride_keeps
               (set_StreamURL
                  (filepath_Join (OutputDir config) (video_ID video ++ videoFormat)) song)
               (Some (songFromInfo video))).
    + simpl. rewrite songFromInfo_Playbacks. apply keep_int_zero.
    + exists video, y1. split; [reflexivity|]. split.
      * simpl. now rewrite songFromInfo_Seconds.
      * simpl. rewrite songFromInfo_StreamURL. apply keep_str_empty.
  - destruct (GetStreamURLContext _ _ y1) as [[streamURL [e|]] y2] eqn:Hstream;
      [discriminate|].
    intros [= <- <-].
    split; [|split].
    + exact (MergeNoOverride_keeps (set_StreamURL streamURL song)
               (Some (songFromInfo video))).
    + simpl. rewrite songFromInfo_Playbacks. apply keep_int_zero.
    + exists video, y1. split; [reflexivity|]. split.
      * simpl. now rewrite songFromInfo_Seconds.
      * simpl. rewrite songFromInfo_StreamURL, keep_str_empty. exact Hstream.
Qed.

End ResolverFacts.

(** ** The wired application on sample data *)

Section Samples.
Import pkg player app.

(** C1 on the wired application: one request, the resolver, the Player. *)
Lemma C1_queue_empty_refills_witness :
  ∃ w, handleError 1 ErrQueueEmpty radioA =
         Ret tt (mkService w true [] [CGetRandomSongs 1; CEnsureStreamInfo songA; CPlay songA]).
Proof.
  eexists.
  refine (proj2 (C1_queue_empty_refills 0 ErrQueueEmpty radioA songA []
                   (snd (GetRandomSongs 1 worldA)) _ _ _) _ songA _ _);
    vm_compute; reflexivity.
Defined.

(** C2 on the wired application, not connected: without a guild the call
    is refused, with guild and channel it goes through. *)
Lemma C2_play_not_connected_witness :
  Play 0 "song a" "user" "" "channel" serviceA = Ret (None, 0, Some ErrNotConnected) serviceA ∧
  ∃ track n failure s',
    Play 0 "song a" "user" "guild" "channel" serviceA = Ret (track, n, failure) s' ∧
    failure ≠ Some ErrNotConnected ∧
    ∃ more, calls s' = (calls serviceA ++ CFindSong "song a" :: more)%list.
Proof.
  split.
  - apply (proj1 (C2_play_not_connected 0 "song a" "user" "" "channel" serviceA));
      [reflexivity|left; reflexivity].
  - apply (proj2 (C2_play_not_connected 0 "song a" "user" "guild" "channel" serviceA)).
    right. split; discriminate.
Defined.

(** C3 at the failing input: the radio is switched on towards a given
    destination while the provider has no song preloaded.  The provider's
    error comes back to the caller, wrapped once, nothing is logged, and
    the radio flag stays up. *)
Theorem C3_set_radio_leaves_flag_up :
  ∃ s',
    SetRadio 1 true "guild" "channel" (NewMusicService worldEmpty) =
      Ret (Some (Wrap (New "no preloaded songs") "get 1 random song from bd")) s' ∧
    isRadio s' = true ∧
    logger s' = [] ∧
    calls s' = [CSubscribe HandleError; CConnect "guild" "channel"; CGetRandomSongs 1].
Proof. eexists. repeat split. Qed.

(** The same provider error arriving through a QueueEmpty event: the
    radio goes off and the error is logged once. *)
Example queue_empty_exhausted_sample :
  ∃ w,
    handleError 1 ErrQueueEmpty (mkService worldEmpty true [] []) =
      Ret tt (mkService w false
                [LogError (Wrap (Wrap (New "no preloaded songs")
                                   "get 1 random song from bd") "radio failed")]
                [CGetRandomSongs 1]).
Proof.
  eexists.
  apply (handleError_exhausted 0 ErrQueueEmpty (mkService worldEmpty true [] []) []
           (New "no preloaded songs") worldEmpty); reflexivity.
Qed.

(** C4 on the wired application: a wrapped manual stop is held back, a
    transport failure reaches subscriber 7 and switches the radio off. *)
Lemma C4_subscribers_see_failures_only_witness :
  runHandler 1 (Filtered 7) (Wrap ErrManualStop "pipeline") radioA = Ret tt radioA ∧
  runHandler 1 (Filtered 7) (Foreign "voice: send failed") radioA =
    Ret tt (mkService worldA true [] [CHandler 7 (Foreign "voice: send failed")]) ∧
  runHandler 1 HandleError (Foreign "voice: send failed") radioA =
    Ret tt (mkService worldA false
              [LogErrorMsg "error from player" (Foreign "voice: send failed")] []).
Proof.
  split.
  - apply (proj1 (proj2 (C4_subscribers_see_failures_only 1 7
                           (Wrap ErrManualStop "pipeline") radioA))).
    left. reflexivity.
  - apply (proj1 (proj2 (proj2 (C4_subscribers_see_failures_only 1 7
                                  (Foreign "voice: send failed") radioA))));
      reflexivity.
Defined.

(** Two failed rounds of the outage that lasts two rounds. *)
Lemma outage_two_rounds :
  nsteps retry 2 (radioOutage (Some 2%nat))
    (mkService (mkOutage (Some 0%nat)) true
       [LogError (Wrap (Foreign "video unavailable") "ensure stream info for radio");
        LogError (Wrap (Foreign "video unavailable") "ensure stream info for radio")]
       [CGetRandomSongs 1; CEnsureStreamInfo songA;
        CGetRandomSongs 1; CEnsureStreamInfo songA]).
Proof.
  eapply nsteps_l.
  { eapply (retry_intro (radioOutage (Some 2%nat)) songA []); reflexivity. }
  eapply nsteps_l.
  { eapply (retry_intro _ songA []); reflexivity. }
  apply nsteps_O.
Defined.

(** C5 on an outage of two rounds: two units of fuel are not enough,
    three are, and the third request's track is played. *)
Lemma C5_retry_by_recursion_witness :
  playRandomSong 2 (radioOutage (Some 2%nat)) = OutOfFuel ∧
  playRandomSong 3 (radioOutage (Some 2%nat)) =
    Ret None
      (mkService (mkOutage (Some 0%nat)) true
         [LogError (Wrap (Foreign "video unavailable") "ensure stream info for radio");
          LogError (Wrap (Foreign "video unavailable") "ensure stream info for radio")]
         [CGetRandomSongs 1; CEnsureStreamInfo songA;
          CGetRandomSongs 1; CEnsureStreamInfo songA;
          CGetRandomSongs 1; CEnsureStreamInfo songA;
          CPlay (set_StreamURL "https://cdn/aaa" songA)]).
Proof.
  destruct (C5_retry_by_recursion 2 _ _ outage_two_rounds) as (_ & _ & Hdeep & Hdone & _).
  split.
  - apply Hdeep. lia.
  - apply (Hdone ltac:(discriminate) 0%nat).
Defined.

(** While the outage lasts for good, every round fails. *)
Lemma outage_never_ends s :
  rtc retry (radioOutage None) s -> failures (world s) = None.
Proof.
  revert s. apply rtc_ind_r; [reflexivity|].
  intros s1 s2 _ Hstep IH.
  destruct Hstep as [song rest w1 w2 e Hget _ Hres].
  simpl in *. injection Hget as <- <- <-.
  rewrite IH in Hres. now injection Hres as <- <-.
Qed.

(** C5 as stated fails: with a provider that keeps answering and a
    resolver that keeps failing, the refill procedure never returns. *)
Lemma C5_counterexample :
  ¬ ∃ fuel, playRandomSong fuel (radioOutage None) ≠ OutOfFuel.
Proof.
  intros [fuel Hret]. apply Hret. apply retry_forever.
  intros s Hreach. apply outage_never_ends in Hreach.
  eexists. apply (retry_intro s songA [] (world s) (world s) (Foreign "video unavailable"));
    [reflexivity|reflexivity|].
  simpl. now rewrite Hreach.
Qed.

(** C6 on the wired application, not connected and nothing playing:
    without a guild the call is refused; with guild and channel the
    Player is connected, one random track is requested, passed through
    the resolver and played. *)
Lemma C6_set_radio_on_witness :
  SetRadio 1 true "" "channel" serviceA =
    Ret (Some ErrNotConnected)
        (mkService (world serviceA) true (logger serviceA) (calls serviceA)) ∧
  ∃ w, SetRadio 1 true "guild" "channel" serviceA =
         Ret None (mkService w true []
                     [CSubscribe HandleError; CConnect "guild" "channel";
                      CGetRandomSongs 1; CEnsureStreamInfo songA; CPlay songA]).
Proof.
  split.
  - pose proof (proj1 (C6_set_radio_on 1 "" "channel" serviceA)) as Hrefused.
    apply Hrefused; [reflexivity|left; reflexivity].
  - pose (linked := mkService (Player_Connect "guild" "channel" (world serviceA)) true
                      (logger serviceA) (calls serviceA ++ [CConnect "guild" "channel"])).
    pose (found := GetRandomSongs 1 (world linked)).
    pose (resolved := EnsureStreamInfo songA (snd found)).
    pose proof (proj2 (C6_set_radio_on 0 "guild" "channel" serviceA)) as Hgo.
    cbv zeta in Hgo.
    assert (voice_IsConnected (world serviceA) = true ∨ ("guild" ≠ "" ∧ "channel" ≠ ""))
      as Hdest by (right; split; discriminate).
    specialize (Hgo Hdest). destruct Hgo as [_ Hidle].
    match type of Hidle with
    | ?A -> _ => assert A as Hnone by (vm_compute; reflexivity); specialize (Hidle Hnone)
    end.
    destruct Hidle as [_ [Htrack _]].
    specialize (Htrack songA [] (snd found)).
    match type of Htrack with
    | ?A -> _ => assert A as Hget by (vm_compute; reflexivity); specialize (Htrack Hget)
    end.
    destruct Htrack as [_ [Hresolve _]].
    specialize (Hresolve eq_refl songA (snd resolved)).
    match type of Hresolve with
    | ?A -> _ => assert A as Hres by (vm_compute; reflexivity); specialize (Hresolve Hres)
    end.
    exists (Player_Play songA (snd resolved)).
    vm_compute in Hresolve |- *. exact Hresolve.
Defined.

(** C7 on a cache miss: [songA] is resolved against its video; what it
    had stays, the stream URL of the audio/mp4 format comes in. *)
Lemma C7_resolution_frame_witness :
  ∃ song' y',
    youtube.EnsureStreamInfo streamConfig ∅ songA tubeA = ((song', None), y') ∧
    keeps_populated songA song' ∧
    Playbacks song' = Playbacks songA ∧
    StreamURL song' = "https://cdn/aaa" ∧
    Duration song' = S754_finite false 212 0.
Proof.
  pose (r := youtube.EnsureStreamInfo streamConfig ∅ songA tubeA).
  assert (r = ((fst (fst r), None), snd r)) as Hrun by (vm_compute; reflexivity).
  exists (fst (fst r)), (snd r). split; [exact Hrun|].
  destruct (C7_resolution_frame streamConfig ∅ songA tubeA _ _ Hrun)
    as (Hkept & Hcount & _).
  split; [exact Hkept|]. split; [exact Hcount|]. split; vm_compute; reflexivity.
Defined.

(** C7 as stated fails: a track that comes in with a stream reference
    leaves a successful [EnsureStreamInfo] with another one, here the one
    of the cache entry. *)
Lemma C7_counterexample :
  let r := youtube.EnsureStreamInfo streamConfig {[ key (ID staleA) := cachedA ]}
             staleA noTube in
  snd (fst r) = None ∧
  StreamURL staleA = "file:///tmp/aaa.m4a" ∧
  StreamURL (fst (fst r)) = "https://cdn/aaa".
Proof. vm_compute. repeat split. Qed.

(** The same on a cache miss: the resolved stream URL replaces it. *)
Example resolution_overwrites_on_miss :
  let r := youtube.EnsureStreamInfo streamConfig ∅ staleA tubeA in
  snd (fst r) = None ∧ StreamURL (fst (fst r)) = "https://cdn/aaa".
Proof. vm_compute. repeat split. Qed.

(** C8 on a track stored with three playbacks: the fourth is counted. *)
Lemma C8_upsert_counts_from_stored_witness :
  ∃ new' s',
    firestore.UpsertSongIncPlaybacks freshA storeA = ((new', 4, None), s') ∧
    Playbacks new' = 4 ∧
    firestore.songs s' !! key (ID new') = Some new' ∧
    keeps_populated freshA new'.
Proof.
  pose (r := firestore.UpsertSongIncPlaybacks freshA storeA).
  assert (r = ((fst (fst (fst r)), 4, None), snd r)) as Hrun by (vm_compute; reflexivity).
  exists (fst (fst (fst r))), (snd r). split; [exact Hrun|].
  destruct (C8_upsert_counts_from_stored freshA storeA _ 4 _ Hrun eq_refl)
    as (_ & _ & _ & Hcount & Hcache & _ & _ & Hkept & _).
  split; [exact Hcount|]. split; [exact Hcache|exact Hkept].
Defined.

(** C8 as stated fails: a track that is not stored and comes in with
    three playbacks on it is stored with four, and four is returned. *)
Lemma C8_counterexample :
  firestore.value_of (fst (firestore.GetSong (ID songA) emptyStore)) = None ∧
  Playbacks songA = 3 ∧
  fst (firestore.UpsertSongIncPlaybacks songA emptyStore) =
    (set_Playbacks 4 songA, 4, None).
Proof. vm_compute. repeat split. Qed.

(** C10 on the wired application with the database out of reach. *)
Lemma C10_storage_failure_still_plays_witness :
  ∃ track s',
    Play 7 "song a" "" "guild" "channel" (NewMusicService worldDown) =
      Ret (Some track, 0,
           Some (Wrap (Wrap (Wrap (Foreign "firestore: unavailable") "get song by id")
                         "failed to get song from db") "upsert song with increment")) s' ∧
    last (calls s') = Some (CGoPlay track) ∧
    isRadio s' = false.
Proof.
  pose (s0 := NewMusicService worldDown).
  pose (found := FindSong "song a" (world s0)).
  pose (song := match fst found with inl x => x | inr _ => zeroSong end).
  pose (stored := UpsertSongIncPlaybacks (set_LastPlay 7 song)
                    (Player_Connect "guild" "channel" (snd found))).
  pose proof (C10_storage_failure_still_plays 7 "song a" "" "guild" "channel" s0
                song (snd found) (fst (fst (fst stored))) 0
                (Wrap (Wrap (Foreign "firestore: unavailable") "get song by id")
                   "failed to get song from db") (snd stored)) as H.
  match type of H with
  | ?A -> _ => assert A as Hok by (right; split; discriminate); specialize (H Hok)
  end.
  match type of H with
  | ?A -> _ => assert A as Hfind by (vm_compute; reflexivity); specialize (H Hfind)
  end.
  match type of H with
  | ?A -> _ => assert A as Hstore by (vm_compute; reflexivity); specialize (H Hstore)
  end.
  destruct H as (s' & Hplay & _ & Hlast & Hradio).
  exists (fst (fst (fst stored))), s'.
  split.
  { vm_compute in Hplay |- *. exact Hplay. }
  split.
  { vm_compute in Hlast |- *. exact Hlast. }
  exact Hradio.
Defined.

End Samples.

(** * Further properties of the code *)

(** ** The song store: lookups, writes and their failures *)

Section StoreBehaviour.
Import pkg firestore.
Context {C : Type} `{!ClientAPI C} `{!CacheKey}.

Implicit Types (s : Service (C := C)) (song new : Song) (id : SongID).

(** X1: a lookup that found the song makes the next lookup of the same id
    a cache hit: it returns the same song and leaves the whole service,
    the database client included, as it is. *)
Theorem X1_GetSong_read_through id s song s1 :
  GetSong id s = (inl song, s1) -> GetSong id s1 = (inl song, s1).
Proof.
  intros Hget. apply GetSong_cached in Hget.
  unfold GetSong. now rewrite Hget.
Qed.

(** X2: a failing lookup leaves the cache as it was, and its error is
    either the sentinel [ErrNotFound] itself, so that callers can compare
    with [==], or a wrap of another error of the client. *)
Theorem X2_GetSong_failure id s :
  match GetSong id s with
  | (inr err, s1) =>
      songs s1 = songs s ∧ songs s !! KeyFromID id = None ∧
      (err = ErrNotFound ∨
       ∃ cause, err = Wrap cause "get song by id" ∧ cause ≠ ErrNotFound)
  | (inl song, s1) => songs s1 !! KeyFromID id = Some song
  end.
Proof.
  destruct (GetSong id s) as [[song|err] s1] eqn:Hget.
  - now apply GetSong_cached in Hget.
  - unfold GetSong in Hget.
    destruct (songs s !! KeyFromID id) as [cached|] eqn:Hhit; [discriminate|].
    destruct (GetSongByID id (client s)) as [[found|cause] c]; [discriminate|].
    destruct (decide (cause = ErrNotFound)) as [->|Hne];
      injection Hget as <- <-; repeat split; eauto.
Qed.

(** What a lookup leaves alone. *)
Lemma GetSong_frame id s :
  songs s ⊆ songs (snd (GetSong id s)) ∧
  songsShort (snd (GetSong id s)) = songsShort s ∧
  updated (snd (GetSong id s)) = updated s ∧
  rand (snd (GetSong id s)) = rand s.
Proof.
  unfold GetSong.
  destruct (songs s !! KeyFromID id) as [cached|] eqn:Hhit; [easy|].
  destruct (GetSongByID id (client s)) as [[found|cause] c]; simpl.
  - split; [now apply insert_subseteq|easy].
  - destruct (decide (cause = ErrNotFound)); easy.
Qed.

(** X3: a lookup never drops or overwrites a cache entry: every entry of
    the cache is still there, unchanged, after [GetSong], whether the
    lookup succeeded or failed. *)
Theorem X3_GetSong_keeps_cache id s k cached :
  songs s !! k = Some cached -> songs (snd (GetSong id s)) !! k = Some cached.
Proof.
  intros Hin. destruct (GetSong_frame id s) as (Hsub & _).
  now apply (lookup_weaken _ _ _ _ Hin).
Qed.

(** X4: what [SetSong] stored is what [GetSong] finds: after a
    successful write the lookup of the song's id is a cache hit on that
    very record. *)
Theorem X4_SetSong_then_GetSong song s s' :
  SetSong song s = (None, s') -> GetSong (ID song) s' = (inl song, s').
Proof.
  intros Hset. apply SetSong_stored in Hset as (Hcache & _ & _).
  unfold GetSong. now rewrite Hcache.
Qed.

(** X5: [SetSong] raises the update flag before it writes, so the flag
    is up after a failed write too; a failed write leaves the cache
    untouched and returns the client's error wrapped. *)
Theorem X5_SetSong_failure song s :
  updated (snd (SetSong song s)) = true ∧
  match SetSong song s with
  | (Some err, s') =>
      songs s' = songs s ∧
      ∃ cause, err = Wrap cause "firestore set song" ∧
               fst (client_SetSong song (client s)) = Some cause
  | (None, s') => songs s' = <[KeyFromID (ID song) := song]> (songs s)
  end.
Proof.
  unfold SetSong. simpl.
  destruct (client_SetSong song (client s)) as [[cause|] c]; simpl;
    repeat split; eauto.
Qed.

(** X6: when the lookup of the stored track fails with anything but
    [ErrNotFound], [UpsertSongIncPlaybacks] gives up at once: it returns
    count 0 and the error wrapped twice, hands the track back unchanged,
    writes nothing and leaves cache and update flag as they were. *)
Theorem X6_upsert_lookup_failure new s cause c :
  songs s !! KeyFromID (ID new) = None ->
  GetSongByID (ID new) (client s) = (inr cause, c) ->
  cause ≠ ErrNotFound ->
  UpsertSongIncPlaybacks new s =
    ((new, 0, Some (Wrap (Wrap cause "get song by id") "failed to get song from db")),
     with_client c s).
Proof.
  intros Hmiss Hdb Hne. unfold UpsertSongIncPlaybacks, GetSong.
  rewrite Hmiss, Hdb.
  destruct (decide (cause = ErrNotFound)) as [|_]; [contradiction|].
  reflexivity.
Qed.

(** X7: when the write of [UpsertSongIncPlaybacks] fails, the count
    returned is 0 whatever was stored, the error is the client's wrapped
    twice, the cache keeps its entries, and the update flag is up. *)
Theorem X7_upsert_write_failure new s new' n err s' :
  UpsertSongIncPlaybacks new s = ((new', n, Some err), s') ->
  n = 0 ∧
  songs s ⊆ songs s' ∧
  ((∃ cause, err = Wrap (Wrap cause "firestore set song") "failed to set song into db"
             ∧ updated s' = true) ∨
   (∃ cause, err = Wrap (Wrap cause "get song by id") "failed to get song from db"
             ∧ new' = new)).
Proof.
  unfold UpsertSongIncPlaybacks, GetSong, SetSong. simpl.
  destruct (songs s !! KeyFromID (ID new)) as [cached|] eqn:Hhit;
    cbn [err_of other_than value_of].
  - set (new2 := set_Playbacks _ _).
    destruct (client_SetSong new2 (client s)) as [[cause|] c]; [|discriminate].
    intros [= <- <- <- <-]. simpl. repeat split; eauto.
  - destruct (GetSongByID (ID new) (client s)) as [[found|e] c];
      cbn [err_of other_than value_of].
    + set (new2 := set_Playbacks _ _). simpl.
      destruct (client_SetSong new2 c) as [[cause|] c1]; [|discriminate].
      intros [= <- <- <- <-]. simpl.
      split; [reflexivity|]. split; [now apply insert_subseteq|]. left. eauto.
    + destruct (decide (e = ErrNotFound)) as [->|Hne]; cbn [err_of other_than value_of].
      * destruct (decide (ErrNotFound = ErrNotFound)) as [_|Hno]; [|now destruct Hno].
        set (new2 := set_Playbacks _ _). simpl.
        destruct (client_SetSong new2 c) as [[cause|] c1]; [|discriminate].
        intros [= <- <- <- <-]. simpl. repeat split; eauto.
      * destruct (decide (Wrap e "get song by id" = ErrNotFound)); [discriminate|].
        intros [= <- <- <- <-]. simpl. repeat split; eauto.
Qed.

(** X8: [IncrementUserRequests] writes the user's request count into the
    song's own play count: 1 when the user has no document for the song,
    the user's count plus one when there is one.  No other field of the
    song changes, the cache is not touched, and on any other read error
    the song is handed back as it came and nothing is written. *)
Theorem X8_IncrementUserRequests song userID s :
  let read := GetUserSong (ID song) userID (client s) in
  let song' := fst (IncrementUserRequests song userID s) in
  let s' := snd (IncrementUserRequests song userID s) in
  songs s' = songs s ∧
  song' = set_Playbacks (Playbacks song') song ∧
  match fst read with
  | inl userSong =>
      Playbacks song' = int_wrap (Playbacks userSong + 1) ∧
      client s' = snd (SetUserSong song' userID (snd read))
  | inr err =>
      if decide (err = ErrNotFound) then
        Playbacks song' = 1 ∧ client s' = snd (SetUserSong song' userID (snd read))
      else song' = song ∧ client s' = snd read
  end.
Proof.
  unfold IncrementUserRequests. simpl.
  destruct (GetUserSong (ID song) userID (client s)) as [[userSong|err] c]; simpl.
  - destruct (SetUserSong _ userID c) as [e c1] eqn:Hset. simpl.
    repeat split. now rewrite Hset.
  - destruct (decide (err = ErrNotFound)) as [->|Hne].
    + destruct (SetUserSong _ userID c) as [e c1] eqn:Hset. simpl.
      repeat split. now rewrite Hset.
    + simpl. repeat split. now destruct song.
Qed.

(** The sampling loop never holds more than [n] ids. *)
Lemma sample_size cooldown n max ids (set : gmap string SongID) r :
  Z.of_nat (size set) <= Z.max 0 n ->
  Z.of_nat (size (fst (sample cooldown n max ids set r))) <= Z.max 0 n.
Proof.
  revert set r. induction cooldown as [|cooldown IH]; intros set r Hle; [exact Hle|].
  simpl. destruct (decide (Z.of_nat (size set) < n)) as [Hlt|]; [|exact Hle].
  unfold Intn. apply IH.
  set (id := ids !!! _).
  destruct (set !! SongID_ID id) as [x|] eqn:Hin.
  - rewrite map_size_insert_Some by (exists x; exact Hin). exact Hle.
  - rewrite map_size_insert_None by exact Hin. lia.
Qed.

(** The loading loop: what a successful run returns and what it keeps. *)
Lemma load_success ids result s found s' :
  load ids result s = ((found, None), s') ->
  length found = (length result + length ids)%nat ∧
  songsShort s' = songsShort s ∧ updated s' = updated s ∧ rand s' = rand s ∧
  songs s ⊆ songs s'.
Proof.
  revert result s. induction ids as [|v rest IH]; intros result s; simpl.
  - intros [= <- <-]. rewrite Nat.add_0_r. repeat split. reflexivity.
  - destruct (GetSong_frame v s) as (Hgrow & Hl & Hu & Hr).
    destruct (GetSong v s) as [[song|err] s1]; [|discriminate]. simpl in *.
    intros Hload. apply IH in Hload as (Hlen & Hl' & Hu' & Hr' & Hsub).
    rewrite length_app in Hlen. simpl in Hlen.
    repeat split; try congruence; [lia|]. etrans; eassumption.
Qed.

(** A failing run of the loading loop returns no songs. *)
Lemma load_failure ids result s found err s' :
  load ids result s = ((found, Some err), s') ->
  found = [] ∧ ∃ cause, err = Wrap cause "get song failed".
Proof.
  revert result s. induction ids as [|v rest IH]; intros result s; simpl; [discriminate|].
  destruct (GetSong v s) as [[song|cause] s1]; [apply IH|].
  intros [= <- <- <-]. eauto.
Qed.

(** X9: a successful [GetRandomSongs(n)] returns at most [n] songs; it
    leaves the preloaded list and the update flag alone and keeps every
    cache entry. *)
Theorem X9_GetRandomSongs_at_most_n n s found s' :
  GetRandomSongs n s = ((found, None), s') ->
  Z.of_nat (length found) <= Z.max 0 n ∧
  songsShort s' = songsShort s ∧ updated s' = updated s ∧
  songs s ⊆ songs s'.
Proof.
  unfold GetRandomSongs.
  destruct (decide (Z.of_nat (length (songsShort s)) = 0)); [discriminate|].
  pose proof (sample_size (Z.to_nat (int_wrap (n * 10))) n
                (Z.of_nat (length (songsShort s))) (songsShort s) ∅ (rand s)) as Hsize.
  destruct (sample _ n _ (songsShort s) ∅ (rand s)) as [set r]. simpl in Hsize.
  intros Hload. apply load_success in Hload as (Hlen & Hl & Hu & _ & Hsub).
  rewrite length_fmap, length_map_to_list in Hlen. simpl in Hlen.
  rewrite Hlen. split; [|easy].
  apply Hsize. rewrite map_size_empty. lia.
Qed.

(** X10: a failing [GetRandomSongs] returns no partial result; its error
    is "no preloaded songs" exactly when the preloaded list is empty, and
    otherwise the wrapped error of the lookup that failed. *)
Theorem X10_GetRandomSongs_failure n s found err s' :
  GetRandomSongs n s = ((found, Some err), s') ->
  found = [] ∧
  ((songsShort s = [] ∧ err = New "no preloaded songs" ∧ s' = s) ∨
   (songsShort s ≠ [] ∧ ∃ cause, err = Wrap cause "get song failed")).
Proof.
  unfold GetRandomSongs.
  destruct (decide (Z.of_nat (length (songsShort s)) = 0)) as [Hzero|Hsome].
  - intros [= <- <- <-]. split; [reflexivity|]. left.
    now destruct (songsShort s).
  - destruct (sample _ n _ (songsShort s) ∅ (rand s)) as [set r].
    intros Hload. apply load_failure in Hload as [-> Hcause].
    split; [reflexivity|]. right. split; [|exact Hcause].
    intros Hnil. now rewrite Hnil in Hsome.
Qed.

(** X11: asked for no song, or for a negative number, [GetRandomSongs]
    succeeds with an empty result and touches nothing, provided
    something is preloaded; with nothing preloaded it fails even then. *)
Theorem X11_GetRandomSongs_none n s :
  n <= 0 ->
  GetRandomSongs n s =
    if decide (songsShort s = []) then (([], Some (New "no preloaded songs")), s)
    else (([], None), s).
Proof.
  intros Hn. unfold GetRandomSongs.
  destruct (decide (songsShort s = [])) as [Hnil|Hsome].
  - now rewrite Hnil.
  - destruct (decide (Z.of_nat (length (songsShort s)) = 0)) as [Hzero|_].
    { destruct (songsShort s); [now destruct Hsome|discriminate]. }
    assert (forall cooldown max ids r,
              sample cooldown n max ids ∅ r = (∅, r)) as Hsample.
    { intros [|cooldown] max ids r; [reflexivity|]. simpl.
      rewrite map_size_empty. destruct (decide (Z.of_nat 0 < n)); [lia|reflexivity]. }
    rewrite Hsample, map_to_list_empty. simpl. now destruct s.
Qed.

(** X30: asked for one song, a successful [GetRandomSongs] returns
    exactly one, the one it looked up for an id of the preloaded list,
    and that song is in the cache under that id's key afterwards. *)
Theorem X30_GetRandomSongs_one_cached s found s' :
  GetRandomSongs 1 s = ((found, None), s') ->
  ∃ id song, id ∈ songsShort s ∧ found = [song] ∧
             songs s' !! KeyFromID id = Some song.
Proof.
  unfold GetRandomSongs.
  destruct (decide (Z.of_nat (length (songsShort s)) = 0)) as [|Hmax]; [discriminate|].
  change (Z.to_nat (int_wrap (1 * 10))) with 10%nat.
  cbn [sample]. rewrite map_size_empty.
  destruct (decide (Z.of_nat 0 < 1)) as [_|Hlt]; [|now destruct Hlt].
  unfold Intn. cbn [sample].
  set (i := Z.to_nat (rand_src (rand s) (rand_pos (rand s))
                        `mod` Z.of_nat (length (songsShort s)))).
  rewrite insert_empty, map_size_singleton.
  destruct (decide (Z.of_nat 1 < 1)) as [Hlt|_]; [lia|].
  rewrite map_to_list_singleton. simpl.
  destruct (GetSong (songsShort s !!! i) _) as [[song|err] s1] eqn:Hget; [|discriminate].
  intros [= <- <-]. exists (songsShort s !!! i), song. split; [|split; [reflexivity|]].
  - apply list_elem_of_lookup. exists i. apply list_lookup_lookup_total_lt.
    subst i.
    pose proof (Z.mod_pos_bound (rand_src (rand s) (rand_pos (rand s)))
                  (Z.of_nat (length (songsShort s)))) as Hbound.
    lia.
  - now apply GetSong_cached in Hget.
Qed.

End StoreBehaviour.

(** ** The preloaded list and its reload *)

Section RefreshBehaviour.
Import pkg firestore.
Context {C : Type} `{!ClientAPI C} `{!ListAPI C} `{!CacheKey}.

Implicit Types (s : Service (C := C)).

(** X12: a tick of the reload ticker does nothing while no song was set
    since the last reload; otherwise it lowers the update flag and
    replaces the preloaded list by the client's answer, and a client
    error raises the flag again so that the next tick retries.  The
    cache and the random source are not touched. *)
Theorem X12_tick s :
  (updated s = false -> tick s = s) ∧
  (updated s = true ->
   songsShort (tick s) = fst (fst (GetAllSongsID (client s))) ∧
   updated (tick s) = bool_decide (is_Some (snd (fst (GetAllSongsID (client s))))) ∧
   client (tick s) = snd (GetAllSongsID (client s)) ∧
   songs (tick s) = songs s ∧ rand (tick s) = rand s).
Proof.
  unfold tick, needUpdate, updateShortCache. split; intros ->; [reflexivity|].
  simpl. destruct (GetAllSongsID (client s)) as [[ids [e|]] c]; simpl; repeat split.
Qed.

(** X13: a reload that fails and brings no ids leaves the provider
    without candidates: until a later reload succeeds every
    [GetRandomSongs] fails with "no preloaded songs", whatever the list
    held before.  A freshly built service is in the same position. *)
Theorem X13_failed_reload_empties_provider s err c n :
  updated s = true ->
  GetAllSongsID (client s) = (([], Some err), c) ->
  updated (tick s) = true ∧
  GetRandomSongs n (tick s) = (([], Some (New "no preloaded songs")), tick s) ∧
  forall client0 cache r,
    GetRandomSongs n (NewFirestoreService client0 cache r) =
      (([], Some (New "no preloaded songs")), NewFirestoreService client0 cache r).
Proof.
  intros Hup Hlist.
  assert (songsShort (tick s) = [] ∧ updated (tick s) = true) as [Hids Hflag].
  { unfold tick, needUpdate, updateShortCache. rewrite Hup. simpl.
    now rewrite Hlist. }
  split; [exact Hflag|]. split; [|reflexivity].
  unfold GetRandomSongs. now rewrite Hids.
Qed.

End RefreshBehaviour.

(** ** The resolver: search, thumbnails, formats, failures *)

Section ResolverBehaviour.
Import pkg youtube.
Context {Y : Type} `{!Backend Y} `{!firestore.CacheKey}.

Implicit Types (song : Song) (y : Y) (items : list Item) (ts : list Thumbnail).

(** The first video of a result list. *)
Lemma firstVideo_found items song :
  firstVideo items = inl song ->
  ∃ (before : list Item) (item : Item) (after : list Item),
    items = (before ++ item :: after)%list ∧
    Forall (fun i => Kind i ≠ videoKind) before ∧
    Kind item = videoKind ∧
    song = mkSong (item_Title item) (videoPrefix ++ VideoId item) ServiceYouTube
             (ChannelTitle item) (channelPrefix ++ ChannelId item)
             (fst (getImages (item_Thumbnails item)))
             (snd (getImages (item_Thumbnails item)))
             0 0 (mkSongID (VideoId item) ServiceYouTube) "" (S754_zero false).
Proof.
  revert song. induction items as [|item rest IH]; intros song; simpl; [discriminate|].
  destruct (decide (Kind item = videoKind)) as [Hkind|Hkind].
  - destruct (getImages (item_Thumbnails item)) as [art thumb] eqn:Himg.
    intros [= <-]. exists [], item, rest. rewrite Himg. repeat split; auto.
  - intros Hrest. destruct (IH _ Hrest) as (before & it & after & -> & Hall & Hk & Hs).
    exists (item :: before), it, after. repeat split; auto.
Qed.

Lemma firstVideo_error items err :
  firstVideo items = inr err ->
  err = ErrSongNotFound ∧ Forall (fun i => Kind i ≠ videoKind) items.
Proof.
  induction items as [|item rest IH]; simpl.
  - intros [= <-]. split; [reflexivity|constructor].
  - destruct (decide (Kind item = videoKind)) as [Hkind|Hkind].
    + now destruct (getImages (item_Thumbnails item)).
    + intros Hrest. destruct (IH Hrest) as [-> Hall]. split; [reflexivity|now constructor].
Qed.

(** Whatever goes wrong in the search, the error is [ErrSongNotFound]. *)
Lemma findSong_error query y err y1 :
  findSong query y = (inr err, y1) -> err = ErrSongNotFound.
Proof.
  unfold findSong.
  destruct (SearchList query maxSearchResult y) as [[items e] y0].
  destruct e as [e|]; [now intros [= <- <-]|].
  destruct items as [items|]; [|now intros [= <- <-]].
  intros [= Hfirst <-]. now apply firstVideo_error in Hfirst.
Qed.

(** X14: [findSong] reports every failure as [ErrSongNotFound], whether
    the search request failed, came back without items, or had no video
    among its items; when it succeeds, the song is built from the first
    item of kind video: its id and URL come from the video id, its
    service is YouTube, and it has no stream reference, no duration and
    no play count yet. *)
Theorem X14_findSong query y :
  match fst (findSong query y) with
  | inr err => err = ErrSongNotFound
  | inl song =>
      ∃ (items before : list Item) (item : Item) (after : list Item),
        fst (SearchList query maxSearchResult y) = (Some items, None) ∧
        items = (before ++ item :: after)%list ∧
        Forall (fun i => Kind i ≠ videoKind) before ∧
        Kind item = videoKind ∧
        ID song = mkSongID (VideoId item) ServiceYouTube ∧
        URL song = videoPrefix ++ VideoId item ∧
        Title song = item_Title item ∧
        StreamURL song = "" ∧ Playbacks song = 0 ∧
        float_is_zero (Duration song) = true
  end.
Proof.
  unfold findSong.
  destruct (SearchList query maxSearchResult y) as [[items err] y1]. simpl.
  destruct err as [e|]; [reflexivity|].
  destruct items as [items|]; [|reflexivity]. simpl.
  destruct (firstVideo items) as [song|err] eqn:Hfirst.
  - apply firstVideo_found in Hfirst as (before & item & after & Hsplit & Hall & Hk & ->).
    exists items, before, item, after. repeat split; assumption.
  - now apply firstVideo_error in Hfirst.
Qed.

(** The loop of [getYTDLImages]: the index stays in range, the running
    maximum is no higher than the thumbnail at the index, and nothing
    seen so far is higher than the running maximum. *)
Lemma maxIterLoop_max (seen rest : list Thumbnail) (maxHeight : Z) (maxIter : nat) :
  (maxIter < length (seen ++ rest))%nat ->
  Forall (fun t => Height t <= maxHeight) seen ->
  maxHeight <= Height ((seen ++ rest)%list !!! maxIter) ->
  (maxIterLoop rest (length seen) maxHeight maxIter < length (seen ++ rest))%nat ∧
  Forall (fun t => Height t <=
                   Height ((seen ++ rest)%list !!!
                             maxIterLoop rest (length seen) maxHeight maxIter))
         (seen ++ rest).
Proof.
  revert seen maxHeight maxIter.
  induction rest as [|t rest IH]; intros seen maxHeight maxIter Hlt Hseen Hat; simpl.
  - split; [exact Hlt|]. rewrite app_nil_r in *.
    eapply Forall_impl; [exact Hseen|]. simpl. intros x Hx. lia.
  - assert (S (length seen) = length (seen ++ [t])) as Hlen
      by (rewrite length_app; simpl; lia).
    assert (seen ++ t :: rest = (seen ++ [t]) ++ rest)%list as Happ
      by now rewrite <- app_assoc.
    rewrite Hlen, Happ in *.
    destruct (decide (Height t > maxHeight)) as [Hgt|Hle]; apply IH.
    + rewrite <- Happ, length_app. simpl. lia.
    + apply Forall_app. split; [|constructor; [lia|constructor]].
      eapply Forall_impl; [exact Hseen|]. simpl. intros; lia.
    + rewrite <- Happ. rewrite list_lookup_total_middle by reflexivity. lia.
    + exact Hlt.
    + apply Forall_app. split; [exact Hseen|constructor; [lia|constructor]].
    + exact Hat.
Qed.

(** X15: of a non-empty thumbnail list [getYTDLImages] returns, as
    artwork and as thumbnail alike, the URL of a thumbnail that no other
    one exceeds in height (heights are unsigned); of an empty list it
    returns two empty strings. *)
Theorem X15_getYTDLImages_highest ts :
  Forall (fun t => 0 <= Height t) ts ->
  match ts with
  | [] => getYTDLImages ts = ("", "")
  | _ :: _ =>
      ∃ t, t ∈ ts ∧ getYTDLImages ts = (thumb_URL t, thumb_URL t) ∧
           Forall (fun u => Height u <= Height t) ts
  end.
Proof.
  intros Hpos. destruct ts as [|t0 rest]; [reflexivity|].
  destruct (maxIterLoop_max [] (t0 :: rest) 0 0) as [Hlt Hmax].
  - simpl. lia.
  - constructor.
  - simpl. now apply Forall_cons in Hpos as [Hp _].
  - simpl app in *. simpl length in Hlt.
    exists ((t0 :: rest) !!! maxIterLoop (t0 :: rest) 0 0 0).
    split; [|split; [reflexivity|exact Hmax]].
    apply list_elem_of_lookup. exists (maxIterLoop (t0 :: rest) 0 0 0).
    apply list_lookup_lookup_total_lt. exact Hlt.
Qed.

(** The stable sort by itag: a sorted rearrangement of its input. *)
Lemma insertItag_perm f (sorted : list Format) :
  insertItag f sorted ≡ₚ f :: sorted.
Proof.
  induction sorted as [|g rest IH]; simpl; [reflexivity|].
  destruct (decide (ItagNo f <= ItagNo g)); [reflexivity|].
  rewrite IH. apply Permutation_swap.
Qed.

Lemma sortStableByItag_perm (formats : list Format) :
  sortStableByItag formats ≡ₚ formats.
Proof.
  induction formats as [|f rest IH]; simpl; [reflexivity|].
  rewrite insertItag_perm. now rewrite IH.
Qed.

(** X16: the format that [EnsureStreamInfo] asks the stream URL for,
    the first one after the stable sort by itag, is the first format of
    the least itag in the order the library listed them. *)
Theorem X16_least_itag_first (formats : list Format) :
  formats ≠ [] ->
  ∃ (before after : list Format),
    formats = (before ++ sortStableByItag formats !!! 0%nat :: after)%list ∧
    Forall (fun g => ItagNo (sortStableByItag formats !!! 0%nat) < ItagNo g) before ∧
    Forall (fun g => ItagNo (sortStableByItag formats !!! 0%nat) <= ItagNo g) after.
Proof.
  induction formats as [|x l IH]; [now intros Hne|]. intros _.
  simpl. destruct l as [|x' l'].
  { exists [], []. simpl. repeat split; constructor. }
  destruct IH as (before & after & Hsplit & Hbefore & Hafter); [discriminate|].
  destruct (sortStableByItag (x' :: l')) as [|h t] eqn:Hsorted.
  { pose proof (sortStableByItag_perm (x' :: l')) as Hperm. rewrite Hsorted in Hperm.
    apply Permutation_nil_l in Hperm. discriminate. }
  cbn [lookup_total list_lookup_total] in Hsplit, Hbefore, Hafter. simpl.
  destruct (decide (ItagNo x <= ItagNo h)) as [Hle|Hgt].
  - exists [], (x' :: l'). simpl. split; [reflexivity|]. split; [constructor|].
    rewrite Hsplit. apply Forall_app. split.
    + eapply Forall_impl; [exact Hbefore|]. simpl. intros; lia.
    + constructor; [exact Hle|].
      eapply Forall_impl; [exact Hafter|]. simpl. intros; lia.
  - exists (x :: before), after. simpl. split; [now rewrite Hsplit|].
    split; [|exact Hafter]. constructor; [lia|exact Hbefore].
Qed.

(** X17: when [EnsureStreamInfo] fails, the cache had no entry for the
    track; without download mode the track is handed back untouched;
    in download mode a failed download leaves the track with its stream
    reference already pointing at the file that was to be written, and
    the downloader's error comes back unwrapped. *)
Theorem X17_EnsureStreamInfo_failure config cache song y song' err y' :
  EnsureStreamInfo config cache song y = ((song', Some err), y') ->
  cache !! firestore.KeyFromID (ID song) = None ∧
  (song' = song ∨
   ∃ video y1,
     cfg_Download config = true ∧
     GetVideo (URL song) y = (inl video, y1) ∧
     song' = set_StreamURL
               (filepath_Join (OutputDir config) (video_ID video ++ videoFormat)) song ∧
     ∃ format, Download video format (video_ID video ++ videoFormat) y1 = (Some err, y')) ∧
  (cfg_Download config = false -> song' = song).
Proof.
  unfold EnsureStreamInfo.
  destruct (cache !! firestore.KeyFromID (ID song)) as [cached|]; [discriminate|].
  intros Hrun. split; [reflexivity|]. revert Hrun.
  destruct (GetVideo (URL song) y) as [[video|e] y1] eqn:Hvideo.
  2: { intros [= <- <- <-]. split; [now left|reflexivity]. }
  destruct (decide (length _ = 0%nat)) as [|Hsome].
  { intros [= <- <- <-]. split; [now left|reflexivity]. }
  destruct (cfg_Download config).
  - destruct (Download video _ _ y1) as [[e|] y2] eqn:Hdl; [|discriminate].
    intros [= <- <- <-]. split; [|discriminate].
    right. exists video, y1. repeat split. eexists. exact Hdl.
  - destruct (GetStreamURLContext video _ y1) as [[url [e|]] y2]; [|discriminate].
    intros [= <- <- <-]. split; [now left|reflexivity].
Qed.

(** X18: [FindSong] returns the search's [ErrSongNotFound] as it is and
    every failure of the resolution wrapped with "ensure stream info";
    when the search fails the resolver is not consulted: the backend is
    left as the search left it. *)
Theorem X18_FindSong_errors config cache query y err y' :
  FindSong config cache query y = (inr err, y') ->
  (err = ErrSongNotFound ∧ findSong query y = (inr ErrSongNotFound, y')) ∨
  (∃ song y1 song1 cause,
     findSong query y = (inl song, y1) ∧
     EnsureStreamInfo config cache song y1 = ((song1, Some cause), y') ∧
     err = Wrap cause "ensure stream info").
Proof.
  unfold FindSong.
  destruct (findSong query y) as [[song|e] y1] eqn:Hsearch.
  - destruct (EnsureStreamInfo config cache song y1) as [[song1 [cause|]] y2] eqn:Hres;
      [|discriminate].
    intros [= <- <-]. right. exists song, y1, song1, cause. repeat split. exact Hres.
  - intros [= <- <-]. left. apply findSong_error in Hsearch as Hkind. now subst e.
Qed.

End ResolverBehaviour.

(** ** Store and resolver on one cache *)

Section SharedCache.
Import pkg.
Context {C Y : Type} `{!firestore.ClientAPI C} `{!youtube.Backend Y} `{!firestore.CacheKey}.

(** X19: the resolver reads the cache the store writes (main.go hands
    both the same [songsCache]).  A song that [GetSong] has just returned
    and that carries the id it was asked for is therefore a cache hit for
    [EnsureStreamInfo]: the call succeeds without asking YouTube and
    hands the song back exactly as it came, with the stream reference it
    had, empty or not. *)
Theorem X19_stored_song_is_not_resolved id (s s1 : firestore.Service (C := C)) song config (y : Y) :
  firestore.GetSong id s = (inl song, s1) ->
  ID song = id ->
  youtube.EnsureStreamInfo config (firestore.songs s1) song y = ((song, None), y).
Proof.
  intros Hget Hid. apply GetSong_cached in Hget.
  unfold youtube.EnsureStreamInfo. rewrite Hid, Hget. now destruct song.
Qed.

End SharedCache.

(** ** The coordinator: what its methods touch and what they leave *)

Section CoordinatorBehaviour.
Import pkg player.
Context {W : Type} `{!Firestore W} `{!YouTube W} `{!Player W}.

Implicit Types (s : Service W) (err : error) (song : Song).

Ltac run :=
  repeat (progress (cbn [bind ret call call_ log panic setRadio RadioStatus
                          IsConnected NowPlaying invoke fst snd
                          world isRadio logger calls] in *
                    || unfold bind, ret, call, call_, log, panic, setRadio,
                         RadioStatus, IsConnected, NowPlaying, invoke in * )).

(** What the refill procedure has done when it is over, one way or the
    other: the radio flag is as before, every log entry stands for one
    more provider request, and no track was requested otherwise. *)
Lemma playRandomSong_account fuel s :
  match playRandomSong fuel s with
  | Ret r s' =>
      isRadio s' = isRadio s ∧
      requests (calls s') =
        (requests (calls s) + (length (logger s') - length (logger s)) + 1)%nat ∧
      (length (logger s) <= length (logger s'))%nat ∧
      match r with
      | None => ∃ song, last (calls s') = Some (CPlay song)
      | Some e => last (calls s') = Some (CGetRandomSongs 1) ∧
                  ∃ cause, e = Wrap cause "get 1 random song from bd"
      end
  | Panic s' =>
      isRadio s' = isRadio s ∧ last (calls s') = Some (CGetRandomSongs 1)
  | OutOfFuel => True
  end.
Proof.
  revert s. induction fuel as [|fuel IH]; intros s; [exact I|].
  simpl. run.
  destruct (GetRandomSongs 1 (world s)) as [[songs err] w1].
  destruct err as [e|].
  { simpl. rewrite requests_app, last_snoc. simpl. repeat split; eauto; lia. }
  destruct songs as [|song rest].
  { simpl. rewrite last_snoc. now split. }
  destruct (decide (StreamURL song = "")) as [Hurl|Hurl]; run.
  - destruct (EnsureStreamInfo song w1) as [[song1|e] w2]; run.
    + simpl. rewrite !requests_app, last_snoc. simpl. repeat split; eauto; lia.
    + match goal with |- context [playRandomSong fuel ?st] => specialize (IH st) end.
      destruct (playRandomSong fuel _) as [r s'|s'|]; [| |exact I]; simpl in IH.
      * destruct IH as (Hradio & Hreq & Hlen & Hlast).
        rewrite !requests_app, length_app in *. simpl in *.
        repeat split; [exact Hradio|lia|lia|exact Hlast].
      * exact IH.
  - simpl. rewrite !requests_app, last_snoc. simpl. repeat split; eauto; lia.
Qed.

(** X20: when [playRandomSong] returns, it has made exactly one provider
    request more than it has logged resolution failures; a nil result
    means its last act was [Player.Play], an error means its last act was
    the provider request that failed, and the error is that failure
    wrapped.  The radio flag is never touched. *)
Theorem X20_playRandomSong_account fuel s r s' :
  playRandomSong fuel s = Ret r s' ->
  isRadio s' = isRadio s ∧
  requests (calls s') =
    (requests (calls s) + (length (logger s') - length (logger s)) + 1)%nat ∧
  match r with
  | None => ∃ song, last (calls s') = Some (CPlay song)
  | Some e => last (calls s') = Some (CGetRandomSongs 1) ∧
              ∃ cause, e = Wrap cause "get 1 random song from bd"
  end.
Proof.
  intros Hrun. pose proof (playRandomSong_account fuel s) as Hacc.
  rewrite Hrun in Hacc. tauto.
Qed.

(** X21: [handleError] can lower the radio flag and never raises it. *)
Theorem X21_handleError_never_raises fuel err s a s' :
  handleError fuel err s = Ret a s' -> isRadio s' = true -> isRadio s = true.
Proof.
  unfold handleError. destruct (Is err ErrQueueEmpty).
  - run. destruct (isRadio s) eqn:Hradio; [easy|].
    intros [= <- <-]. now rewrite Hradio.
  - destruct (negb (Is err ErrManualStop) && negb (Is err EOF)); run.
    + intros [= <- <-]. discriminate.
    + now intros [= <- <-].
Qed.

(** X22: the events the coordinator lets pass: QueueEmpty while the
    radio is off, and a manual stop or an end of stream in any state,
    change nothing at all: no call, no log entry, no flag. *)
Theorem X22_handleError_ignores fuel err s :
  (Is err ErrQueueEmpty = true -> isRadio s = false -> handleError fuel err s = Ret tt s) ∧
  (Is err ErrQueueEmpty = false -> Is err ErrManualStop = true ∨ Is err EOF = true ->
   handleError fuel err s = Ret tt s).
Proof.
  unfold handleError. split.
  - intros -> Hoff. run. now rewrite Hoff.
  - intros -> Hexpected.
    assert (negb (Is err ErrManualStop) && negb (Is err EOF) = false) as ->.
    { destruct Hexpected as [-> | ->]; [reflexivity|apply andb_false_r]. }
    reflexivity.
Qed.

(** X23: after [SetRadio(b, ...)] the radio flag is [b], also when the
    call returns an error (no connection and no destination, or a
    provider that has nothing to offer) or panics. *)
Theorem X23_SetRadio_flag fuel b guildID channelID s :
  match SetRadio fuel b guildID channelID s with
  | Ret _ s' => isRadio s' = b
  | Panic s' => isRadio s' = b
  | OutOfFuel => True
  end.
Proof.
  unfold SetRadio. run. destruct b; simpl; [|reflexivity].
  destruct (voice_IsConnected (world s)); simpl.
  - destruct (Player_NowPlaying (world s)); [reflexivity|].
    match goal with |- context [playRandomSong fuel ?st] =>
      pose proof (playRandomSong_account fuel st) as Hacc end.
    destruct (playRandomSong fuel _) as [r s'|s'|]; [| |exact I]; simpl in Hacc; tauto.
  - destruct (bool_decide (guildID = "" ∨ channelID = "")); [reflexivity|]. run.
    destruct (Player_NowPlaying _); [reflexivity|].
    match goal with |- context [playRandomSong fuel ?st] =>
      pose proof (playRandomSong_account fuel st) as Hacc end.
    destruct (playRandomSong fuel _) as [r s'|s'|]; [| |exact I]; simpl in Hacc; tauto.
Qed.

(** X24: when the search fails, [Play] returns no track, count 0 and the
    search error wrapped; it has logged one debug line and called
    [FindSong] and nothing else: no connection attempt, no storage
    access, no playback. *)
Theorem X24_Play_search_failure now query userID guildID channelID s e w1 :
  voice_IsConnected (world s) = true ∨ (guildID ≠ "" ∧ channelID ≠ "") ->
  FindSong query (world s) = (inr e, w1) ->
  Play now query userID guildID channelID s =
    Ret (None, 0, Some (Wrap e "find and load song from youtube"))
        (mkService w1 (isRadio s) (logger s ++ [LogDebug "Finding song"])
           (calls s ++ [CFindSong query])).
Proof.
  intros Hok Hfind. unfold Play. run.
  assert (negb (voice_IsConnected (world s))
          && bool_decide (channelID = "" ∨ guildID = "") = false) as ->.
  { destruct Hok as [-> | [Hg Hc]]; [reflexivity|].
    rewrite bool_decide_false by tauto. apply andb_false_r. }
  now rewrite Hfind.
Qed.

(** X25: [Play] always returns; it never touches the radio flag and
    never asks the provider for a random track.  It hands a track to the
    Player exactly when it returns one, and when it returns none it
    returns an error and has at most searched. *)
Theorem X25_Play_outcome now query userID guildID channelID s :
  ∃ track n failure s',
    Play now query userID guildID channelID s = Ret (track, n, failure) s' ∧
    isRadio s' = isRadio s ∧
    requests (calls s') = requests (calls s) ∧
    match track with
    | Some song => last (calls s') = Some (CGoPlay song)
    | None => failure ≠ None ∧
              (calls s' = calls s ∨ calls s' = (calls s ++ [CFindSong query])%list)
    end.
Proof.
  unfold Play. run.
  destruct (negb (voice_IsConnected (world s))
            && bool_decide (channelID = "" ∨ guildID = "")).
  { do 4 eexists. repeat split; [discriminate|now left]. }
  destruct (FindSong query (world s)) as [[song|e] w1]; run.
  2: { do 4 eexists. split; [reflexivity|]. simpl. rewrite requests_app. simpl.
       repeat split; [lia|discriminate|now right]. }
  destruct (bool_decide (channelID ≠ "" ∨ guildID ≠ "")); run;
    match goal with
    | |- context [UpsertSongIncPlaybacks ?x ?w] =>
        destruct (UpsertSongIncPlaybacks x w) as [[[song2 n] e] w3]
    end; run;
    destruct (bool_decide (userID ≠ "")); run;
    try match goal with
    | |- context [IncrementUserRequests ?x ?u ?w] =>
        destruct (IncrementUserRequests x u w) as [song3 w4]
    end; run;
    do 4 eexists; (split; [reflexivity|]); simpl;
    rewrite !requests_app, last_snoc; simpl; repeat split; lia.
Qed.

(** X26: the calls of a successful [Play], in order: the search; the
    connection, made whenever the guild or the channel is given, so also
    with one of them empty while the voice client is connected; the
    play-count update, on the song stamped with the current time; the
    user's request count, only for a non-empty user id; the playback. *)
Theorem X26_Play_trace now query userID guildID channelID s song w1 :
  voice_IsConnected (world s) = true ∨ (guildID ≠ "" ∧ channelID ≠ "") ->
  FindSong query (world s) = (inl song, w1) ->
  ∃ track n failure s' song2,
    Play now query userID guildID channelID s = Ret (Some track, n, failure) s' ∧
    calls s' =
      (calls s ++ [CFindSong query] ++
       (if bool_decide (channelID ≠ "" ∨ guildID ≠ "")
        then [CConnect guildID channelID] else []) ++
       [CUpsertSongIncPlaybacks (set_LastPlay now song)] ++
       (if bool_decide (userID ≠ "") then [CIncrementUserRequests song2 userID] else []) ++
       [CGoPlay track])%list.
Proof.
  intros Hok Hfind. unfold Play. run.
  assert (negb (voice_IsConnected (world s))
          && bool_decide (channelID = "" ∨ guildID = "") = false) as ->.
  { destruct Hok as [-> | [Hg Hc]]; [reflexivity|].
    rewrite bool_decide_false by tauto. apply andb_false_r. }
  rewrite Hfind. run.
  destruct (bool_decide (channelID ≠ "" ∨ guildID ≠ "")); run;
    match goal with
    | |- context [UpsertSongIncPlaybacks ?x ?w] =>
        destruct (UpsertSongIncPlaybacks x w) as [[[song2 n] e] w3]
    end; run;
    destruct (bool_decide (userID ≠ "")); run;
    try match goal with
    | |- context [IncrementUserRequests ?x ?u ?w] =>
        destruct (IncrementUserRequests x u w) as [song3 w4]
    end; run;
    do 4 eexists; exists song2; (split; [reflexivity|]); simpl;
    now rewrite <- ?app_assoc.
Qed.

(** X29: whenever the refill that a QueueEmpty event started ends with
    an error, after any number of retries, the coordinator switches the
    radio off and logs that error once as "radio failed"; the last call
    it made is the provider request that failed, so nothing was played,
    and no external subscriber was called. *)
Theorem X29_queue_empty_refill_failure fuel err s e s1 :
  Is err ErrQueueEmpty = true ->
  isRadio s = true ->
  playRandomSong fuel s = Ret (Some e) s1 ->
  handleError fuel err s =
    Ret tt (mkService (world s1) false
              (logger s1 ++ [LogError (Wrap e "radio failed")]) (calls s1)) ∧
  last (calls s1) = Some (CGetRandomSongs 1) ∧
  handed (calls s1) = handed (calls s).
Proof.
  intros Hq Hradio Hrun. split; [|split].
  - unfold handleError. rewrite Hq. run. rewrite Hradio, Hrun. reflexivity.
  - pose proof (playRandomSong_account fuel s) as Hacc. rewrite Hrun in Hacc. tauto.
  - eapply playRandomSong_hands_nothing, Hrun.
Qed.

End CoordinatorBehaviour.

(** ** The wired application *)

Section WiredBehaviour.
Import pkg player app.

Implicit Types (s : Service World) (w : World).

(** X27: in the wired application the refill procedure does not resolve
    the provider's track: a track without stream reference that sits in
    the shared cache under its own id passes [EnsureStreamInfo] as a
    cache hit, unchanged, and is handed to the Player with the stream
    reference still empty, after a single provider request. *)
Theorem X27_wired_radio_plays_unresolved fuel s song rest w1 :
  GetRandomSongs 1 (world s) = ((song :: rest, None), w1) ->
  StreamURL song = "" ->
  firestore.songs (store w1) !! key (ID song) = Some song ->
  playRandomSong (S fuel) s =
    Ret None (mkService (Player_Play song w1) (isRadio s) (logger s)
                (calls s ++ [CGetRandomSongs 1; CEnsureStreamInfo song; CPlay song])).
Proof.
  intros Hget Hurl Hhit.
  apply (proj2 (playRandomSong_plays fuel s song rest w1 Hget) Hurl song w1).
  simpl. unfold youtube.EnsureStreamInfo.
  change (@firestore.KeyFromID key) with key. rewrite Hhit.
  now destruct song, w1.
Qed.

(** X28: over the Firestore-backed provider [songs[0]] is always in
    range: the refill procedure of the wired application never panics. *)
Theorem X28_wired_radio_never_panics fuel s s' :
  playRandomSong fuel s ≠ Panic s'.
Proof.
  revert s. induction fuel as [|fuel IH]; intros s; [discriminate|].
  simpl. unfold bind, call, call_, log, ret, panic. simpl.
  destruct (firestore.GetRandomSongs 1 (store (world s))) as [[found err] st] eqn:Hget.
  destruct err as [e|]; [discriminate|].
  apply GetRandomSongs_one in Hget.
  destruct found as [|song rest]; [discriminate|]. simpl.
  destruct (decide (StreamURL song = "")) as [Hurl|Hurl]; [|discriminate].
  destruct (youtube.EnsureStreamInfo _ _ song _) as [[song1 [e|]] y]; simpl;
    [apply IH|discriminate].
Qed.

End WiredBehaviour.

(** ** The further properties on sample data *)

Section MoreSamples.
Import pkg player app.

(** Proves the premises of [H] by evaluation, one after the other. *)
Ltac evaluate H :=
  repeat match type of H with
         | ?A -> _ =>
             let Hx := fresh "Hx" in
             assert A as Hx
               by first [ vm_compute; reflexivity
                        | vm_compute; discriminate
                        | discriminate
                        | lia
                        | left; vm_compute; reflexivity
                        | right; split; discriminate
                        | repeat constructor; lia
                        | vm_compute; repeat constructor; easy ];
             specialize (H Hx)
         end.

Lemma X1_GetSong_read_through_witness :
  firestore.GetSong (ID songA) loadedA = (inl songA, loadedA).
Proof.
  pose proof (X1_GetSong_read_through (ID songA) storeA songA loadedA) as H.
  evaluate H. exact H.
Defined.

Lemma X3_GetSong_keeps_cache_witness :
  firestore.songs (snd (firestore.GetSong (mkSongID "zzz" ServiceYouTube) loadedA))
    !! key (ID songA) = Some songA.
Proof.
  pose proof (X3_GetSong_keeps_cache (mkSongID "zzz" ServiceYouTube) loadedA
                (key (ID songA)) songA) as H.
  evaluate H. exact H.
Defined.

Lemma X4_SetSong_then_GetSong_witness :
  firestore.GetSong (ID cachedA) (snd (firestore.SetSong cachedA emptyStore)) =
    (inl cachedA, snd (firestore.SetSong cachedA emptyStore)).
Proof.
  pose proof (X4_SetSong_then_GetSong cachedA emptyStore
                (snd (firestore.SetSong cachedA emptyStore))) as H.
  evaluate H. exact H.
Defined.

Lemma X6_upsert_lookup_failure_witness :
  firestore.UpsertSongIncPlaybacks freshA storeDown =
    ((freshA, 0,
      Some (Wrap (Wrap (Foreign "firestore: unavailable") "get song by id")
              "failed to get song from db")),
     firestore.with_client (firestore.client storeDown) storeDown).
Proof.
  pose proof (X6_upsert_lookup_failure freshA storeDown
                (Foreign "firestore: unavailable") (firestore.client storeDown)) as H.
  evaluate H. exact H.
Defined.

Lemma X7_upsert_write_failure_witness :
  ∃ new' s',
    firestore.UpsertSongIncPlaybacks freshA storeCachedDown =
      ((new', 0,
        Some (Wrap (Wrap (Foreign "firestore: unavailable") "firestore set song")
                "failed to set song into db")), s') ∧
    firestore.songs storeCachedDown ⊆ firestore.songs s'.
Proof.
  pose (r := firestore.UpsertSongIncPlaybacks freshA storeCachedDown).
  pose proof (X7_upsert_write_failure freshA storeCachedDown (fst (fst (fst r))) 0
                (Wrap (Wrap (Foreign "firestore: unavailable") "firestore set song")
                   "failed to set song into db") (snd r)) as H.
  evaluate H. destruct H as (_ & Hsub & _).
  exists (fst (fst (fst r))), (snd r). split; [vm_compute; reflexivity|exact Hsub].
Defined.

Lemma X9_GetRandomSongs_at_most_n_witness :
  Z.of_nat (length [songA]) <= Z.max 0 1 ∧
  firestore.songsShort (snd (firestore.GetRandomSongs 1 storeA)) = firestore.songsShort storeA.
Proof.
  pose proof (X9_GetRandomSongs_at_most_n 1 storeA [songA]
                (snd (firestore.GetRandomSongs 1 storeA))) as H.
  evaluate H. destruct H as (Hlen & Hlist & _). split; [exact Hlen|exact Hlist].
Defined.

Lemma X10_GetRandomSongs_failure_witness :
  ([] : list Song) = [] ∧
  ((firestore.songsShort storeDown = [] ∧
    Wrap (Wrap (Foreign "firestore: unavailable") "get song by id") "get song failed" =
      New "no preloaded songs" ∧
    snd (firestore.GetRandomSongs 1 storeDown) = storeDown) ∨
   (firestore.songsShort storeDown ≠ [] ∧
    ∃ cause,
      Wrap (Wrap (Foreign "firestore: unavailable") "get song by id") "get song failed" =
        Wrap cause "get song failed")).
Proof.
  pose proof (X10_GetRandomSongs_failure 1 storeDown []
                (Wrap (Wrap (Foreign "firestore: unavailable") "get song by id")
                   "get song failed")
                (snd (firestore.GetRandomSongs 1 storeDown))) as H.
  evaluate H. exact H.
Defined.

Lemma X11_GetRandomSongs_none_witness :
  firestore.GetRandomSongs 0 storeA =
    if decide (firestore.songsShort storeA = [])
    then (([], Some (New "no preloaded songs")), storeA)
    else (([], None), storeA).
Proof.
  pose proof (X11_GetRandomSongs_none 0 storeA) as H.
  evaluate H. exact H.
Defined.

Lemma X12_tick_witness :
  firestore.songsShort (firestore.tick (firestore.setUpdate true emptyStore)) = [] ∧
  firestore.updated (firestore.tick (firestore.setUpdate true emptyStore)) = false ∧
  firestore.tick emptyStore = emptyStore.
Proof.
  destruct (X12_tick (firestore.setUpdate true emptyStore)) as [_ Hreload].
  destruct (X12_tick emptyStore) as [Hidle _].
  evaluate Hreload. evaluate Hidle.
  destruct Hreload as (Hlist & Hflag & _).
  split; [|split]; [vm_compute in Hlist |- *; exact Hlist
                   |vm_compute in Hflag |- *; exact Hflag
                   |exact Hidle].
Defined.

Lemma X13_failed_reload_empties_provider_witness :
  firestore.updated (firestore.tick (firestore.setUpdate true storeDown)) = true ∧
  firestore.GetRandomSongs 1 (firestore.tick (firestore.setUpdate true storeDown)) =
    (([], Some (New "no preloaded songs")),
     firestore.tick (firestore.setUpdate true storeDown)).
Proof.
  pose proof (X13_failed_reload_empties_provider (firestore.setUpdate true storeDown)
                (Foreign "firestore: unavailable") (firestore.client storeDown) 1) as H.
  evaluate H. destruct H as (Hflag & Hfail & _). split; [exact Hflag|exact Hfail].
Defined.

Lemma X15_getYTDLImages_highest_witness :
  ∃ t, t ∈ youtube.Thumbnails videoA ∧
       youtube.getYTDLImages (youtube.Thumbnails videoA) =
         (youtube.thumb_URL t, youtube.thumb_URL t) ∧
       Forall (fun u => youtube.Height u <= youtube.Height t) (youtube.Thumbnails videoA).
Proof.
  pose proof (X15_getYTDLImages_highest (youtube.Thumbnails videoA)) as H.
  evaluate H. exact H.
Defined.

Lemma X16_least_itag_first_witness :
  ∃ (before after : list youtube.Format),
    youtube.Formats videoA =
      (before ++ youtube.sortStableByItag (youtube.Formats videoA) !!! 0%nat :: after)%list ∧
    Forall (fun g => youtube.ItagNo
                       (youtube.sortStableByItag (youtube.Formats videoA) !!! 0%nat)
                     < youtube.ItagNo g) before ∧
    Forall (fun g => youtube.ItagNo
                       (youtube.sortStableByItag (youtube.Formats videoA) !!! 0%nat)
                     <= youtube.ItagNo g) after.
Proof.
  pose proof (X16_least_itag_first (youtube.Formats videoA)) as H.
  evaluate H. exact H.
Defined.

Lemma X17_EnsureStreamInfo_failure_witness :
  ∃ song' y',
    youtube.EnsureStreamInfo downloadConfig ∅ songA tubeNoDisk =
      ((song', Some (Foreign "disk full")), y') ∧
    StreamURL song' = "music/aaa.m4a".
Proof.
  pose (r := youtube.EnsureStreamInfo downloadConfig ∅ songA tubeNoDisk).
  pose proof (X17_EnsureStreamInfo_failure downloadConfig ∅ songA tubeNoDisk
                (fst (fst r)) (Foreign "disk full") (snd r)) as H.
  evaluate H. destruct H as (_ & _ & _).
  exists (fst (fst r)), (snd r). split; vm_compute; reflexivity.
Defined.

Lemma X18_FindSong_errors_witness :
  (ErrSongNotFound = ErrSongNotFound ∧
   youtube.findSong "song a" noTube = (inr ErrSongNotFound, noTube)) ∨
  (∃ song y1 song1 cause,
     youtube.findSong "song a" noTube = (inl song, y1) ∧
     youtube.EnsureStreamInfo streamConfig ∅ song y1 = ((song1, Some cause), noTube) ∧
     ErrSongNotFound = Wrap cause "ensure stream info").
Proof.
  pose proof (X18_FindSong_errors streamConfig ∅ "song a" noTube ErrSongNotFound noTube)
    as H.
  evaluate H. exact H.
Defined.

Lemma X19_stored_song_is_not_resolved_witness :
  youtube.EnsureStreamInfo streamConfig (firestore.songs loadedA) songA noTube =
    ((songA, None), noTube).
Proof.
  pose proof (X19_stored_song_is_not_resolved (ID songA) storeA loadedA songA
                streamConfig noTube) as H.
  evaluate H. exact H.
Defined.

Lemma X20_playRandomSong_account_witness :
  ∃ s',
    playRandomSong 3 (radioOutage (Some 2%nat)) = Ret None s' ∧
    requests (calls s') = 3%nat ∧ length (logger s') = 2%nat.
Proof.
  pose (run := playRandomSong 3 (radioOutage (Some 2%nat))).
  pose (s' := match run with Ret _ st => st | _ => radioOutage None end).
  pose proof (X20_playRandomSong_account 3 (radioOutage (Some 2%nat)) None s') as H.
  evaluate H. destruct H as (_ & Hreq & _).
  exists s'. split; [vm_compute; reflexivity|].
  split; [vm_compute in Hreq |- *; exact Hreq|vm_compute; reflexivity].
Defined.

Lemma X21_handleError_never_raises_witness :
  isRadio radioA = true.
Proof.
  pose proof (X21_handleError_never_raises 1 ErrManualStop radioA tt radioA) as H.
  evaluate H. exact H.
Defined.

Lemma X22_handleError_ignores_witness :
  handleError 1 ErrQueueEmpty serviceA = Ret tt serviceA ∧
  handleError 1 (Wrap EOF "read frame") radioA = Ret tt radioA.
Proof.
  destruct (X22_handleError_ignores 1 ErrQueueEmpty serviceA) as [Hoff _].
  destruct (X22_handleError_ignores 1 (Wrap EOF "read frame") radioA) as [_ Hend].
  evaluate Hoff.
  specialize (Hend eq_refl (or_intror eq_refl)).
  split; [exact Hoff|exact Hend].
Defined.

Lemma X24_Play_search_failure_witness :
  Play 7 "song a" "user" "guild" "lobby" (NewMusicService worldNoTube) =
    Ret (None, 0, Some (Wrap ErrSongNotFound "find and load song from youtube"))
        (mkService (Player_SubscribeOnErrors HandleError worldNoTube) false
           [LogDebug "Finding song"] [CSubscribe HandleError; CFindSong "song a"]).
Proof.
  pose proof (X24_Play_search_failure 7 "song a" "user" "guild" "lobby"
                (NewMusicService worldNoTube) ErrSongNotFound
                (Player_SubscribeOnErrors HandleError worldNoTube)) as H.
  evaluate H. exact H.
Defined.

Lemma X26_Play_trace_witness :
  ∃ track n failure s',
    Play 7 "song a" "" "" "lobby" (NewMusicService worldLinked) =
      Ret (Some track, n, failure) s' ∧
    CConnect "" "lobby" ∈ calls s'.
Proof.
  pose (s0 := NewMusicService worldLinked).
  pose (found := FindSong "song a" (world s0)).
  pose (song := match fst found with inl x => x | inr _ => zeroSong end).
  pose proof (X26_Play_trace 7 "song a" "" "" "lobby" s0 song (snd found)) as H.
  evaluate H. destruct H as (track & n & failure & s' & song2 & Hplay & Hcalls).
  exists track, n, failure, s'. split; [exact Hplay|].
  rewrite Hcalls. vm_compute. apply list_elem_of_In. simpl. tauto.
Defined.

Lemma X27_wired_radio_plays_unresolved_witness :
  playRandomSong 1 radioA =
    Ret None
      (mkService (Player_Play songA (snd (GetRandomSongs 1 worldA))) true []
         [CGetRandomSongs 1; CEnsureStreamInfo songA; CPlay songA]).
Proof.
  pose proof (X27_wired_radio_plays_unresolved 0 radioA songA []
                (snd (GetRandomSongs 1 worldA))) as H.
  evaluate H. exact H.
Defined.

Lemma X29_queue_empty_refill_failure_witness :
  handleError 1 ErrQueueEmpty (mkService worldEmpty true [] []) =
    Ret tt (mkService worldEmpty false
              [LogError (Wrap (Wrap (New "no preloaded songs")
                                 "get 1 random song from bd") "radio failed")]
              [CGetRandomSongs 1]).
Proof.
  pose proof (X29_queue_empty_refill_failure 1 ErrQueueEmpty
                (mkService worldEmpty true [] [])
                (Wrap (New "no preloaded songs") "get 1 random song from bd")
                (mkService worldEmpty true [] [CGetRandomSongs 1])) as H.
  evaluate H. destruct H as (Hrun & _). exact Hrun.
Defined.

Lemma X30_GetRandomSongs_one_cached_witness :
  ∃ id song, id ∈ firestore.songsShort storeA ∧ [songA] = [song] ∧
             firestore.songs (snd (firestore.GetRandomSongs 1 storeA)) !! key id = Some song.
Proof.
  pose proof (X30_GetRandomSongs_one_cached storeA [songA]
                (snd (firestore.GetRandomSongs 1 storeA))) as H.
  evaluate H. exact H.
Defined.

End MoreSamples.
